(** * goptions: flag descriptors (flag.go) and the annotation parser (parseTag)

    A shallow embedding of the two files of the package that hold its
    parsing logic, and the properties of them that the specification
    states.

    - [Go]      : what the code relies on from the language and its
                  standard library: run-time panics, slicing with its
                  bounds checks, [strings.HasPrefix], [strconv.ParseInt].
    - [FlagGo]  : flag.go, the [Flag] descriptor with [Handles], [Parse]
                  and [setValue].
    - [Regexp], [TagGo] : the annotation grammar, from the regular
                  expression the source compiles to the loop of
                  [parseTag]. *)

From Stdlib Require Import ZArith NArith List String Ascii Bool Lia Arith.
Import ListNotations.

#[local] Open Scope string_scope.
#[local] Open Scope list_scope.

(** ** Go: panics, strings as byte sequences, slices *)

Module Go.

(** A Go call either returns or panics. *)
Inductive Result (A : Type) : Type :=
| Ret (a : A)
| Panic.
Arguments Ret {A} a.
Arguments Panic {A}.

Definition bind {A B : Type} (r : Result A) (k : A -> Result B) : Result B :=
  match r with
  | Ret a => k a
  | Panic => Panic
  end.

Notation "x <- r ;; k" := (bind r (fun x => k))
  (at level 61, r at next level, right associativity).
Notation "' p <- r ;; k" := (bind r (fun x => let p := x in k))
  (at level 61, p pattern, r at next level, right associativity).

(** A Go [string] is a sequence of bytes; [len], indexing and slicing
    count bytes.  Rocq's [string] is the same thing. *)

Definition len (s : string) : nat := String.length s.

(** [strings.HasPrefix(s, prefix)]. *)
Definition HasPrefix (s prefix : string) : bool := String.prefix prefix s.

(** [s[i:j]]: panics unless [i <= j <= len(s)]. *)
Definition slice (s : string) (i j : nat) : Result string :=
  if ((i <=? j) && (j <=? len s))%nat then Ret (substring i (j - i) s) else Panic.

(** [s[i:]], that is [s[i:len(s)]]. *)
Definition slice_from (s : string) (i : nat) : Result string :=
  slice s i (len s).

(** [a[i]] on a slice of strings: panics when [i] is out of range. *)
Definition index {A : Type} (a : list A) (i : nat) : Result A :=
  match nth_error a i with
  | Some x => Ret x
  | None => Panic
  end.

(** [a[i:]] on a slice. *)
Definition slice_list {A : Type} (a : list A) (i : nat) : Result (list A) :=
  if (i <=? List.length a)%nat then Ret (skipn i a) else Panic.

(** [a[i] = x]: panics when [i] is out of range. *)
Fixpoint set_index {A : Type} (a : list A) (i : nat) (x : A) : Result (list A) :=
  match a, i with
  | [], _ => Panic
  | _ :: a', O => Ret (x :: a')
  | y :: a', S i' => a'' <- set_index a' i' x ;; Ret (y :: a'')
  end.

(** *** strconv.ParseInt(s, 10, 64)

    The two ways [strconv] reports a failure ([*NumError] with [Err]
    equal to [ErrSyntax] or [ErrRange]). *)
Inductive NumErr : Type := ErrSyntax | ErrRange.

Definition maxUint64 : Z := 2 ^ 64 - 1.

(** The digit loop of [ParseUint] for base 10 and bit size 64: [n] is the
    value read so far.  A byte that is not a decimal digit is a syntax
    error; the two overflow tests are the ones of the library. *)
Fixpoint ParseUint_loop (s : string) (n : Z) : Z + NumErr :=
  match s with
  | EmptyString => inl n
  | String c s' =>
      let b := Z.of_N (N_of_ascii c) in
      if (48 <=? b)%Z && (b <=? 57)%Z then
        let d := (b - 48)%Z in
        let cutoff := (maxUint64 / 10 + 1)%Z in
        if (cutoff <=? n)%Z then inr ErrRange
        else
          let n10 := (n * 10)%Z in
          let n1 := (n10 + d)%Z in
          if (maxUint64 <? n1)%Z then inr ErrRange
          else ParseUint_loop s' n1
      else inr ErrSyntax
  end.

Definition ParseUint (s : string) : Z + NumErr :=
  match s with
  | EmptyString => inr ErrSyntax
  | _ => ParseUint_loop s 0%Z
  end.

(** [ParseInt]: an optional sign, then [ParseUint]; a syntax error of
    [ParseUint] is returned as it is, a range error or a value outside
    the signed 64-bit range is a range error. *)
Definition ParseInt (s : string) : Z + NumErr :=
  match s with
  | EmptyString => inr ErrSyntax
  | String c s' =>
      let '(neg, digits) :=
        if Ascii.eqb c "+" then (false, s')
        else if Ascii.eqb c "-" then (true, s')
        else (false, s) in
      let cutoff := (2 ^ 63)%Z in
      match ParseUint digits with
      | inr ErrSyntax => inr ErrSyntax
      | inr ErrRange => inr ErrRange
      | inl un =>
          if negb neg && (cutoff <=? un)%Z then inr ErrRange
          else if neg && (cutoff <? un)%Z then inr ErrRange
          else inl (if neg then (- un)%Z else un)
      end
  end.

(** Conversion of an [int64] to [int], [bits] wide (32 or 64 depending on
    the platform): the value wraps around. *)
Definition to_int (bits : Z) (x : Z) : Z :=
  ((x + 2 ^ (bits - 1)) mod 2 ^ bits - 2 ^ (bits - 1))%Z.

End Go.

(** ** flag.go *)

Module FlagGo.
Import Go.

(** The errors [Parse] and [setValue] return, one constructor for each
    place that creates one. *)
Inductive error : Type :=
| ErrNeedsArgument (name : string)      (* "Flag %s needs an argument" *)
| ErrOnlyOnce (name : string)           (* "Flag %s can only be specified once" *)
| ErrUnsupportedType (tyname : string)  (* "Unsupported flag type: %s" *)
| ErrHelpRequest                        (* the package's ErrHelpRequest value *)
| ErrNum (num : string) (e : NumErr)    (* *strconv.NumError of ParseInt *)
| ErrOther (msg : string).              (* an error made outside this file *)

(** [reflect.Kind], as far as the code looks at it: [KOther] stands for
    the kinds it does not tell apart (struct, array, map and so on). *)
Inductive Kind : Type := KBool | KInt | KString | KSlice | KPtr | KOther.

Definition Kind_eqb (a b : Kind) : bool :=
  match a, b with
  | KBool, KBool | KInt, KInt | KString, KString
  | KSlice, KSlice | KPtr, KPtr | KOther, KOther => true
  | _, _ => false
  end.

Section Fields.

(** The values of the types the package does not know (the fields of
    the caller's struct that are neither [bool], [string], [int] nor
    [Help]) stay abstract. *)
Context {U : Type}.

(** What a call of [MarshalGoption] does: it returns, leaving its
    receiver in state [u] and giving back nil or an error of its own
    making, known by its text; or it panics with a value that is such
    an error ([Some msg]) or is not an [error] at all ([None]). *)
Inductive MOutcome : Type :=
| MReturn (u : U) (err : option string)
| MPanic (x : option string).

(** A type that implements [Marshaler].  [m_zero] is its zero value and,
    for a pointer type, [m_newptr] a pointer to a new zero value of its
    element type. *)
Record Marshaler : Type := {
  m_zero : U;
  m_newptr : U;
  MarshalGoption : U -> string -> MOutcome
}.

(** A concrete type other than [bool], [string], [int] and [Help]: its
    name ([Type().Name()], empty for an unnamed type such as
    [[]string]), its kind and, when its method set has
    [MarshalGoption], the implementation.  The interface [Marshaler] is
    declared outside these files; its one method is what [setValue]
    calls.  Fields of an interface type are left out of the model. *)
Record OtherType : Type := {
  t_name : string;
  t_kind : Kind;
  t_marshaler : option Marshaler
}.

Inductive GoType : Type :=
| TBool | TString | TInt | THelp
| TOther (t : OtherType).

(** [reflect.Value] of a field: the field's type with its current
    content.  The value is taken to be valid, settable and obtained
    from an exported field, as the values a flag set binds are, so that
    [Type], [Interface] and [Set] themselves do not panic. *)
Inductive Value : Type :=
| BoolV (b : bool)
| StringV (s : string)
| IntV (n : Z)
| HelpV (u : U)
| OtherV (t : OtherType) (u : U).

Definition TypeOf (v : Value) : GoType :=
  match v with
  | BoolV _ => TBool
  | StringV _ => TString
  | IntV _ => TInt
  | HelpV _ => THelp
  | OtherV t _ => TOther t
  end.

(** The declaration of [Help] is not in these files: its kind is a
    parameter, and so is the width of [int]. *)
Context (HelpKind : Kind) (intSize : Z).

Definition KindOf (v : Value) : Kind :=
  match v with
  | BoolV _ => KBool
  | StringV _ => KString
  | IntV _ => KInt
  | HelpV _ => HelpKind
  | OtherV t _ => t_kind t
  end.

Record Flag : Type := {
  Short : string;
  Long : string;
  MutexGroups : list string;
  Description : string;
  Obligatory : bool;
  WasSpecified : bool;
  value : Value
}.

Definition set_WasSpecified (f : Flag) (b : bool) : Flag :=
  {| Short := Short f; Long := Long f; MutexGroups := MutexGroups f;
     Description := Description f; Obligatory := Obligatory f;
     WasSpecified := b; value := value f |}.

Definition set_value (f : Flag) (v : Value) : Flag :=
  {| Short := Short f; Long := Long f; MutexGroups := MutexGroups f;
     Description := Description f; Obligatory := Obligatory f;
     WasSpecified := WasSpecified f; value := v |}.

Definition Name (f : Flag) : string :=
  if (0 <? len (Long f))%nat then ("--" ++ Long f)%string
  else if (0 <? len (Short f))%nat then ("-" ++ Short f)%string
  else "<unspecified>".

Definition NeedsExtraValue (f : Flag) : bool :=
  match TypeOf (value f) with
  | TBool => false
  | THelp => false
  | _ => true
  end.

Definition IsMulti (f : Flag) : bool :=
  if Kind_eqb (KindOf (value f)) KSlice then true else false.

Definition isShort (arg : string) : bool :=
  HasPrefix arg "-" && negb (HasPrefix arg "--").

Definition isLong (arg : string) : bool :=
  HasPrefix arg "--".

(** [(isShort(arg) && arg[1:2] == f.Short) || (isLong(arg) && arg[2:] == f.Long)],
    with the short-circuit evaluation of [&&] and [||]. *)
Definition Handles (f : Flag) (arg : string) : Result bool :=
  short <- (if isShort arg
            then s <- slice arg 1 2 ;; Ret (String.eqb s (Short f))
            else Ret false) ;;
  if short then Ret true
  else if isLong arg
       then s <- slice_from arg 2 ;; Ret (String.eqb s (Long f))
       else Ret false.

(** The parsers of [parserMap]; each gets the field and the raw string
    and gives the field back with the error. *)
Definition valueParser : Type := Value -> string -> Value * option error.

Definition boolValueParser : valueParser :=
  fun v val => (BoolV true, None).

Definition stringValueParser : valueParser :=
  fun v val => (StringV val, None).

Definition intValueParser : valueParser :=
  fun v val =>
    match ParseInt val with
    | inr e => (v, Some (ErrNum val e))
    | inl intval => (IntV (to_int intSize intval), None)
    end.

Definition helpValueParser : valueParser :=
  fun v val => (v, Some ErrHelpRequest).

Definition parserMap (t : GoType) : option valueParser :=
  match t with
  | TBool => Some boolValueParser
  | TString => Some stringValueParser
  | TInt => Some intValueParser
  | THelp => Some helpValueParser
  | TOther _ => None
  end.

Definition marshaler_of (v : Value) : option (OtherType * Marshaler) :=
  match v with
  | OtherV t _ =>
      match t_marshaler t with
      | Some m => Some (t, m)
      | None => None
      end
  | _ => None
  end.

(** [setValue].  With a [Marshaler] field: [newval] is the zero value of
    the field's type, or for a pointer type a pointer to a new element;
    [MarshalGoption] runs on it, and the field is set to [newval]
    before the error is returned.  A call with a value receiver works
    on a copy and leaves [newval] as it was; through a pointer it leaves
    the new element in the state the call ended in.  A panic is
    recovered and returned if its value is an [error]; the assertion
    [x.(error)] panics in turn if it is not. *)
Definition setValue (f : Flag) (s : string) : Result (Flag * option error) :=
  match marshaler_of (value f) with
  | Some (t, m) =>
      let isptr := Kind_eqb (t_kind t) KPtr in
      let newval := if isptr then m_newptr m else m_zero m in
      match MarshalGoption m newval s with
      | MReturn u err =>
          let newval' := if isptr then u else newval in
          Ret (set_value f (OtherV t newval'), option_map ErrOther err)
      | MPanic (Some msg) => Ret (f, Some (ErrOther msg))
      | MPanic None => Panic
      end
  | None =>
      match parserMap (TypeOf (value f)) with
      | Some parser =>
          let '(v, err) := parser (value f) s in
          Ret (set_value f v, err)
      | None =>
          let tyname := match value f with OtherV t _ => t_name t | _ => "" end in
          Ret (f, Some (ErrUnsupportedType tyname))
      end
  end.

(** [Parse] returns the remaining arguments, the flag as the call
    leaves it and the error. *)
Definition Parse (f : Flag) (args : list string)
  : Result (list string * Flag * option error) :=
  param <- index args 0 ;;
  let value := "" in
  if NeedsExtraValue f &&
     ((List.length args <? 2)%nat || (isShort param && (2 <? len param)%nat))
  then Ret (args, f, Some (ErrNeedsArgument (Name f)))
  else if WasSpecified f && negb (IsMulti f)
  then Ret (args, f, Some (ErrOnlyOnce (Name f)))
  else
    '(args', value) <-
       (if isShort param && (2 <? len param)%nat then
          rest <- slice_from param 2 ;;
          args' <- set_index args 0 ("-" ++ rest)%string ;;
          Ret (args', value)
        else if NeedsExtraValue f then
          v <- index args 1 ;;
          args' <- slice_list args 2 ;;
          Ret (args', v)
        else
          args' <- slice_list args 1 ;;
          Ret (args', value)) ;;
    let f := set_WasSpecified f true in
    '(f', err) <- setValue f value ;;
    Ret (args', f', err).

End Fields.

Arguments Marshaler : clear implicits.
Arguments OtherType : clear implicits.
Arguments GoType : clear implicits.
Arguments Value : clear implicits.
Arguments Flag : clear implicits.
Arguments MOutcome : clear implicits.

End FlagGo.

(** ** Strings read as runes

    [strings.TrimSpace] and the [regexp] package read a string as the
    sequence of runes of its UTF-8 decoding (a byte that is not valid
    UTF-8 counts as one rune, U+FFFD).  Every index [parseTag] slices at
    comes from a match, so it lies between two runes: the annotation is
    modelled as its list of runes, and the indices count runes. *)

Module Runes.
Import Go.

Definition rune : Type := N.
Definition str : Type := list rune.

(** The runes of an ASCII literal. *)
Definition runes (s : string) : str := map N_of_ascii (list_ascii_of_string s).

Fixpoint str_eqb (a b : str) : bool :=
  match a, b with
  | [], [] => true
  | x :: a', y :: b' => N.eqb x y && str_eqb a' b'
  | _, _ => false
  end.

(** [strings.HasPrefix(s, prefix)]. *)
Fixpoint HasPrefix (s prefix : str) {struct prefix} : bool :=
  match prefix, s with
  | [], _ => true
  | p :: prefix', x :: s' => N.eqb x p && HasPrefix s' prefix'
  | _ :: _, [] => false
  end.

(** [s[i:j]] with the indices a match returns ([int], possibly -1). *)
Definition slice (s : str) (i j : Z) : Result str :=
  if ((0 <=? i) && (i <=? j) && (j <=? Z.of_nat (List.length s)))%Z
  then Ret (firstn (Z.to_nat j - Z.to_nat i) (skipn (Z.to_nat i) s))
  else Panic.

Definition slice_from (s : str) (i : Z) : Result str :=
  slice s i (Z.of_nat (List.length s)).

(** [unicode.IsSpace]. *)
Definition isSpace (r : rune) : bool :=
  if (r <=? 255)%N then
    (r =? 9)%N || (r =? 10)%N || (r =? 11)%N || (r =? 12)%N || (r =? 13)%N
    || (r =? 32)%N || (r =? 133)%N || (r =? 160)%N
  else
    (r =? 5760)%N || ((8192 <=? r)%N && (r <=? 8202)%N)
    || (r =? 8232)%N || (r =? 8233)%N || (r =? 8239)%N
    || (r =? 8287)%N || (r =? 12288)%N.

Fixpoint TrimLeft (s : str) : str :=
  match s with
  | [] => []
  | c :: s' => if isSpace c then TrimLeft s' else s
  end.

Fixpoint TrimRight (s : str) : str :=
  match s with
  | [] => []
  | c :: s' =>
      match TrimRight s' with
      | [] => if isSpace c then [] else [c]
      | t => c :: t
      end
  end.

(** [strings.TrimSpace]: the string without its leading and trailing
    white space. *)
Definition TrimSpace (s : str) : str := TrimRight (TrimLeft s).

End Runes.

(** ** The regular expressions of the source

    [regexp.MustCompile] gives leftmost-first matching: among the matches
    that start earliest, the one a backtracking search finds first, with
    greedy repetition and the alternatives tried in the order written.
    The matcher below is that backtracking search, in
    continuation-passing style. *)

Module Regexp.
Import Go Runes.

Inductive regex : Type :=
| Chr (c : rune)             (* one rune *)
| Cls (p : rune -> bool)     (* a class [...], [^...] or . *)
| Seq (r1 r2 : regex)
| Alt (r1 r2 : regex)        (* r1|r2 *)
| Plus (r : regex)           (* r+ , greedy *)
| Opt (r : regex)            (* r? , greedy *)
| Grp (i : nat) (r : regex)  (* the i-th capturing group *)
| Bol                        (* ^ *)
| Eol.                       (* $ *)

(** The positions of the groups, as [FindStringSubmatchIndex] returns
    them: entries [2i] and [2i+1] are the start and the end of group
    [i], -1 where the group did not take part. *)
Definition caps : Type := list Z.

Fixpoint upd (c : caps) (i : nat) (x : Z) : caps :=
  match c, i with
  | [], _ => []
  | _ :: c', O => x :: c'
  | y :: c', S i' => y :: upd c' i' x
  end.

Definition set_cap (i : nat) (a b : nat) (c : caps) : caps :=
  upd (upd c (2 * i) (Z.of_nat a)) (2 * i + 1) (Z.of_nat b).

(** A continuation gets the position reached, the input left and the
    groups so far. *)
Definition cont : Type := nat -> str -> caps -> option caps.

(** [r+]: one pass through [body], then as many more as possible before
    the continuation is tried.  The input left bounds the number of
    passes of a body that consumes at least one rune, as the body of
    every [+] of the source does. *)
Fixpoint plus_loop (body : nat -> str -> caps -> cont -> option caps)
    (fuel : nat) (pos : nat) (s : str) (c : caps) (k : cont) : option caps :=
  body pos s c (fun pos' s' c' =>
    match
      match fuel with
      | S fuel' => plus_loop body fuel' pos' s' c' k
      | O => None
      end
    with
    | Some m => Some m
    | None => k pos' s' c'
    end).

Fixpoint m (r : regex) (pos : nat) (s : str) (c : caps) (k : cont)
  : option caps :=
  match r with
  | Chr x =>
      match s with
      | y :: s' => if N.eqb y x then k (S pos) s' c else None
      | [] => None
      end
  | Cls p =>
      match s with
      | y :: s' => if p y then k (S pos) s' c else None
      | [] => None
      end
  | Seq r1 r2 => m r1 pos s c (fun pos' s' c' => m r2 pos' s' c' k)
  | Alt r1 r2 =>
      match m r1 pos s c k with
      | Some res => Some res
      | None => m r2 pos s c k
      end
  | Plus r1 => plus_loop (m r1) (List.length s) pos s c k
  | Opt r1 =>
      match m r1 pos s c k with
      | Some res => Some res
      | None => k pos s c
      end
  | Grp i r1 => m r1 pos s c (fun pos' s' c' => k pos' s' (set_cap i pos pos' c'))
  | Bol => if Nat.eqb pos 0 then k pos s c else None
  | Eol => match s with [] => k pos s c | _ :: _ => None end
  end.

Fixpoint ngroups (r : regex) : nat :=
  match r with
  | Seq r1 r2 | Alt r1 r2 => Nat.max (ngroups r1) (ngroups r2)
  | Plus r1 | Opt r1 => ngroups r1
  | Grp i r1 => Nat.max i (ngroups r1)
  | _ => 0
  end.

(** A match that starts at position [pos], where [s] is the input from
    there on. *)
Definition match_at (re : regex) (pos : nat) (s : str) : option caps :=
  m re pos s (repeat (-1)%Z (2 * (ngroups re + 1)))
    (fun pos' _ c => Some (set_cap 0 pos pos' c)).

(** The leftmost match: the start positions are tried in turn. *)
Fixpoint search (re : regex) (pos : nat) (s : str) : option caps :=
  match match_at re pos s with
  | Some c => Some c
  | None =>
      match s with
      | [] => None
      | _ :: s' => search re (S pos) s'
      end
  end.

(** [re.FindStringSubmatchIndex(s)]; [None] is the nil result. *)
Definition FindStringSubmatchIndex (re : regex) (s : str) : option (list Z) :=
  search re 0 s.

End Regexp.

(** ** parseTag *)

Module TagGo.
Import Go Runes Regexp.

(** [[[:word:]-]]: an ASCII letter, a digit, an underscore or a dash. *)
Definition word_or_dash (c : rune) : bool :=
  ((48 <=? c) && (c <=? 57) || (65 <=? c) && (c <=? 90)
   || (97 <=? c) && (c <=? 122) || (c =? 95) || (c =? 45))%N.

(** [.]: any rune but the newline. *)
Definition any_but_newline (c : rune) : bool := negb (c =? 10)%N.

(** [[^']]. *)
Definition not_quote (c : rune) : bool := negb (c =? 39)%N.

Definition dash : rune := 45%N.
Definition comma : rune := 44%N.
Definition equals : rune := 61%N.
Definition quote : rune := 39%N.
Definition backslash : rune := 92%N.

(** --?[[:word:]-]+ *)
Definition _FLAG_REGEXP : regex :=
  Seq (Chr dash) (Seq (Opt (Chr dash)) (Plus (Cls word_or_dash))).

(** [[:word:]-]+ *)
Definition _BOOL_OPTION_REGEXP : regex := Plus (Cls word_or_dash).

(** '((?:\\.|[^'])+)' : the group is the second of [optionRegexp]. *)
Definition _QUOTED_STRING_REGEXP : regex :=
  Seq (Chr quote)
    (Seq (Grp 2 (Plus (Alt (Seq (Chr backslash) (Cls any_but_newline))
                           (Cls not_quote))))
         (Chr quote)).

(** [[:word:]-]+= followed by the quoted string *)
Definition _VALUE_OPTION_REGEXP : regex :=
  Seq (Plus (Cls word_or_dash)) (Seq (Chr equals) _QUOTED_STRING_REGEXP).

(** ^(flag|bool option|value option)(?:,|$) *)
Definition optionRegexp : regex :=
  Seq Bol
    (Seq (Grp 1 (Alt _FLAG_REGEXP (Alt _BOOL_OPTION_REGEXP _VALUE_OPTION_REGEXP)))
         (Alt (Chr comma) Eol)).

(** Modelled from the spec: the struct [flag] that [parseTag] fills in
    is declared outside these files.  Its fields are the ones [parseTag]
    assigns: the short and the long names in the order of declaration,
    the description, the mutex group and the two settings. *)
Record flag : Type := {
  Short : list str;
  Long : list str;
  Description : str;
  MutexGroup : str;
  Accumulate : bool;
  Obligatory : bool
}.

Inductive tag_error : Type :=
| ErrNoFlagDef (rest : str)
    (* "Could not find a valid flag definition at the beginning of ..." *)
| ErrUnknownOption (option : str).
    (* "Unknown option %s" *)

(** The body of the loop after the match: what one option does to the
    descriptor. *)
Definition apply_option (f : flag) (option : str) (idx : list Z)
  : Result (flag + tag_error) :=
  if HasPrefix option (runes "--") then
    name <- slice_from option 2 ;;
    Ret (inl {| Short := Short f; Long := Long f ++ [name];
                Description := Description f; MutexGroup := MutexGroup f;
                Accumulate := Accumulate f; Obligatory := Obligatory f |})
  else if HasPrefix option (runes "-") then
    name <- slice_from option 1 ;;
    Ret (inl {| Short := Short f ++ [name]; Long := Long f;
                Description := Description f; MutexGroup := MutexGroup f;
                Accumulate := Accumulate f; Obligatory := Obligatory f |})
  else if HasPrefix option (runes "description=") then
    i4 <- index idx 4 ;; i5 <- index idx 5 ;;
    d <- slice option i4 i5 ;;
    Ret (inl {| Short := Short f; Long := Long f;
                Description := d; MutexGroup := MutexGroup f;
                Accumulate := Accumulate f; Obligatory := Obligatory f |})
  else if HasPrefix option (runes "mutexgroup=") then
    i4 <- index idx 4 ;; i5 <- index idx 5 ;;
    g <- slice option i4 i5 ;;
    Ret (inl {| Short := Short f; Long := Long f;
                Description := Description f; MutexGroup := g;
                Accumulate := Accumulate f; Obligatory := Obligatory f |})
  else if str_eqb option (runes "accumulate") then
    Ret (inl {| Short := Short f; Long := Long f;
                Description := Description f; MutexGroup := MutexGroup f;
                Accumulate := true; Obligatory := Obligatory f |})
  else if str_eqb option (runes "obligatory") then
    Ret (inl {| Short := Short f; Long := Long f;
                Description := Description f; MutexGroup := MutexGroup f;
                Accumulate := Accumulate f; Obligatory := true |})
  else Ret (inr (ErrUnknownOption option)).

(** One pass of the loop on the trimmed, non-empty [tag]: the match, the
    option and the rest of the tag. *)
Definition next_option (tag : str) : option (Result (str * list Z * str)) :=
  match FindStringSubmatchIndex optionRegexp tag with
  | None => None
  | Some idx =>
      Some (i2 <- index idx 2 ;; i3 <- index idx 3 ;;
            option <- slice tag i2 i3 ;;
            i1 <- index idx 1 ;;
            tag' <- slice_from tag i1 ;;
            Ret (option, idx, tag'))
  end.

(** The loop of [parseTag]; [None] when [fuel] passes do not reach its
    end. *)
Fixpoint parseTag_loop (fuel : nat) (f : flag) (tag : str)
  : option (Result (flag + tag_error)) :=
  match fuel with
  | O => None
  | S fuel' =>
      let tag := TrimSpace tag in
      if Nat.eqb (List.length tag) 0 then Some (Ret (inl f))
      else
        match next_option tag with
        | None => Some (Ret (inr (ErrNoFlagDef tag)))
        | Some Panic => Some Panic
        | Some (Ret (option, idx, tag')) =>
            match apply_option f option idx with
            | Panic => Some Panic
            | Ret (inr e) => Some (Ret (inr e))
            | Ret (inl f') => parseTag_loop fuel' f' tag'
            end
        end
  end.

Definition new_flag : flag :=
  {| Short := []; Long := []; Description := []; MutexGroup := [];
     Accumulate := false; Obligatory := false |}.

(** Every pass takes at least one rune off the tag, so one pass more
    than the tag has runes is enough (see [parseTag_returns]). *)
Definition parseTag (tag : str) : option (Result (flag + tag_error)) :=
  parseTag_loop (S (List.length tag)) new_flag tag.

End TagGo.

(** * Properties of flag.go *)

Module FlagProps.
Import Go FlagGo.


Lemma substring_all (s : string) : substring 0 (String.length s) s = s.
Proof. induction s as [|c s IH]; simpl; [reflexivity | now rewrite IH]. Qed.

Lemma slice_from_0 (s : string) : slice_from s 0 = Ret s.
Proof.
  unfold slice_from, slice, len. simpl. rewrite Nat.leb_refl, Nat.sub_0_r.
  now rewrite substring_all.
Qed.

Lemma slice_from_S (c : ascii) (s : string) (i : nat) :
  slice_from (String c s) (S i) = slice_from s i.
Proof.
  unfold slice_from, slice, len.
  change (String.length (String c s)) with (S (String.length s)).
  change (S i <=? S (String.length s))%nat with (i <=? String.length s)%nat.
  rewrite !Nat.leb_refl. reflexivity.
Qed.

Lemma slice_1_2 (a c : ascii) (s : string) :
  slice (String a (String c s)) 1 2 = Ret (String c "").
Proof. unfold slice, len. simpl. now destruct s. Qed.

Lemma prefix_nil (s : string) : String.prefix "" s = true.
Proof. now destruct s. Qed.

Lemma prefix_cons (a b : ascii) (p s : string) :
  String.prefix (String a p) (String b s) = Ascii.eqb b a && String.prefix p s.
Proof.
  simpl. destruct (ascii_dec a b) as [->|n].
  - now rewrite Ascii.eqb_refl.
  - destruct (Ascii.eqb_spec b a) as [->|_]; [now elim n | reflexivity].
Qed.

Lemma HasPrefix_dash (a : ascii) (s : string) :
  HasPrefix (String a s) "-" = Ascii.eqb a "-".
Proof. unfold HasPrefix. now rewrite prefix_cons, prefix_nil, andb_true_r. Qed.

Lemma HasPrefix_dashdash (a : ascii) (s : string) :
  HasPrefix (String a s) "--" =
  Ascii.eqb a "-" &&
  match s with String b _ => Ascii.eqb b "-" | EmptyString => false end.
Proof.
  unfold HasPrefix. rewrite prefix_cons. f_equal.
  destruct s as [|b s]; [reflexivity |].
  now rewrite prefix_cons, prefix_nil, andb_true_r.
Qed.

Lemma isShort_cons (a : ascii) (s : string) :
  isShort (String a s) =
  Ascii.eqb a "-" &&
  negb match s with String b _ => Ascii.eqb b "-" | EmptyString => false end.
Proof.
  unfold isShort. rewrite HasPrefix_dash, HasPrefix_dashdash.
  now destruct (Ascii.eqb a "-").
Qed.

Lemma isLong_cons (a : ascii) (s : string) :
  isLong (String a s) =
  Ascii.eqb a "-" &&
  match s with String b _ => Ascii.eqb b "-" | EmptyString => false end.
Proof. unfold isLong. apply HasPrefix_dashdash. Qed.

(** The three shapes of a token: neither kind of flag, a short-style
    token with its first name character, a long-style token with its
    name. *)
Inductive token_shape : string -> Type :=
| shape_plain t : isShort t = false -> isLong t = false ->
    HasPrefix t "-" = false -> token_shape t
| shape_dash : token_shape "-"
| shape_short c rest : c <> "-"%char -> token_shape (String "-" (String c rest))
| shape_long name : token_shape (String "-" (String "-" name)).

Lemma token_shape_of (t : string) : token_shape t.
Proof.
  destruct t as [|a t1].
  - now apply shape_plain.
  - destruct (ascii_dec a "-") as [->|Ha].
    + destruct t1 as [|b t2]; [apply shape_dash |].
      destruct (ascii_dec b "-") as [->|Hb]; [apply shape_long |].
      now apply shape_short.
    + apply shape_plain.
      * rewrite isShort_cons. now destruct (Ascii.eqb_spec a "-").
      * rewrite isLong_cons. now destruct (Ascii.eqb_spec a "-").
      * rewrite HasPrefix_dash. now destruct (Ascii.eqb_spec a "-").
Qed.

Section Props.
Context {U : Type} (HelpKind : Kind) (intSize : Z).

Lemma isShort_short (c : ascii) (rest : string) :
  c <> "-"%char -> isShort (String "-" (String c rest)) = true
                   /\ isLong (String "-" (String c rest)) = false.
Proof.
  intros Hc. rewrite isShort_cons, isLong_cons. simpl.
  destruct (Ascii.eqb_spec c "-"); [contradiction | now split].
Qed.

Lemma isLong_long (name : string) :
  isShort (String "-" (String "-" name)) = false
  /\ isLong (String "-" (String "-" name)) = true.
Proof. rewrite isShort_cons, isLong_cons. now split. Qed.

Lemma Handles_plain (f : Flag U) (t : string) :
  isShort t = false -> isLong t = false -> Handles f t = Ret false.
Proof. intros Hs Hl. unfold Handles. now rewrite Hs, Hl. Qed.

Lemma Handles_short (f : Flag U) (c : ascii) (rest : string) :
  c <> "-"%char ->
  Handles f (String "-" (String c rest)) = Ret (String.eqb (String c "") (Short f)).
Proof.
  intros Hc. destruct (isShort_short c rest Hc) as [Hs Hl].
  unfold Handles. rewrite Hs, Hl, slice_1_2. cbn [bind].
  now destruct (String.eqb (String c "") (Short f)).
Qed.

Lemma Handles_long (f : Flag U) (name : string) :
  Handles f (String "-" (String "-" name)) = Ret (String.eqb name (Long f)).
Proof.
  destruct (isLong_long name) as [Hs Hl].
  unfold Handles. rewrite Hs, Hl. cbn [bind].
  now rewrite !slice_from_S, slice_from_0.
Qed.



(** The long name is compared as it is, empty or not: a flag without a
    long name handles the token "--", whose text after the dashes is
    empty. *)
Remark Handles_double_dash (f : Flag U) :
  Long f = "" -> Handles f "--" = Ret true.
Proof. intros H. rewrite Handles_long, H. reflexivity. Qed.

(** C10.  [Handles] panics on the token "-": [isShort] accepts it and
    the slice [arg[1:2]] ends past the token.  On a token that does not
    start with a dash, or that starts with one and has at least two
    bytes, it returns. *)
Theorem Handles_panics_only_on_dash (f : Flag U) :
  Handles f "-" = Panic
  /\ forall t, (HasPrefix t "-" = true -> 2 <= len t) ->
       exists b, Handles f t = Ret b.
Proof.
  split; [reflexivity |].
  intros t Ht. destruct (token_shape_of t) as [t Hs Hl Hp | | c rest Hc | name].
  - exists false. now apply Handles_plain.
  - specialize (Ht eq_refl). simpl in Ht. lia.
  - eexists. now apply Handles_short.
  - eexists. apply Handles_long.
Qed.

(** *** Parse *)

(** The first test of [Parse]. *)
Definition needs_argument_check (f : Flag U) (args : list string) (param : string)
  : bool :=
  NeedsExtraValue f &&
  ((List.length args <? 2)%nat || (isShort param && (2 <? len param)%nat)).

(** What [Parse] does once its two tests are passed. *)
Definition consume (f : Flag U) (args : list string) (param : string)
  : Result (list string * Flag U * option error) :=
  '(args', value) <-
     (if isShort param && (2 <? len param)%nat then
        rest <- slice_from param 2 ;;
        args' <- set_index args 0 ("-" ++ rest)%string ;;
        Ret (args', "")
      else if NeedsExtraValue f then
        v <- index args 1 ;;
        args' <- slice_list args 2 ;;
        Ret (args', v)
      else
        args' <- slice_list args 1 ;;
        Ret (args', "")) ;;
  '(f', err) <- setValue intSize (set_WasSpecified f true) value ;;
  Ret (args', f', err).

Lemma Parse_cons (f : Flag U) (param : string) (rest : list string) :
  Parse HelpKind intSize f (param :: rest) =
  if needs_argument_check f (param :: rest) param
  then Ret (param :: rest, f, Some (ErrNeedsArgument (Name f)))
  else if WasSpecified f && negb (IsMulti HelpKind f)
  then Ret (param :: rest, f, Some (ErrOnlyOnce (Name f)))
  else consume f (param :: rest) param.
Proof. reflexivity. Qed.

(** [setValue] makes neither of the two errors of [Parse]. *)
Lemma setValue_error (f f' : Flag U) (s : string) (e : error) :
  setValue intSize f s = Ret (f', Some e) ->
  (forall n, e <> ErrNeedsArgument n) /\ (forall n, e <> ErrOnlyOnce n).
Proof.
  unfold setValue. destruct (marshaler_of (value f)) as [[t m]|].
  - destruct (MarshalGoption m _ s) as [u [msg|] | [msg|]]; simpl;
      intros E; inversion E; subst; split; discriminate.
  - destruct (parserMap intSize (TypeOf (value f))) as [parser|] eqn:Ep.
    + destruct (parser (value f) s) as [v err] eqn:Er.
      intros E. inversion E; subst. clear E.
      destruct (TypeOf (value f)); simpl in Ep; inversion Ep; subst; clear Ep.
      * inversion Er.
      * inversion Er.
      * unfold intValueParser in Er. destruct (ParseInt s); inversion Er; subst.
        split; discriminate.
      * inversion Er; subst. split; discriminate.
    + intros E. inversion E; subst. split; discriminate.
Qed.

Lemma consume_error (f f' : Flag U) (args args' : list string)
    (param : string) (e : error) :
  consume f args param = Ret (args', f', Some e) ->
  (forall n, e <> ErrNeedsArgument n) /\ (forall n, e <> ErrOnlyOnce n).
Proof.
  unfold consume.
  match goal with |- bind ?r _ = _ -> _ => destruct r as [[a v]|] end;
    cbn [bind]; [| discriminate].
  destruct (setValue intSize (set_WasSpecified f true) v) as [[g err]|] eqn:E;
    cbn [bind]; [| discriminate].
  intros H. inversion H; subst. now apply setValue_error in E.
Qed.

(** C2.  For a flag that needs a value and a non-empty argument list,
    [Parse] fails with the needs-argument error exactly when the list
    has fewer than two elements or its first token is a short-style
    token of more than two bytes; the error names the flag, the list is
    returned as it was and the flag is untouched. *)
Theorem Parse_needs_argument_iff (f : Flag U) (param : string) (rest : list string) :
  NeedsExtraValue f = true ->
  ((exists args' f' name,
       Parse HelpKind intSize f (param :: rest)
       = Ret (args', f', Some (ErrNeedsArgument name)))
   <-> (List.length (param :: rest) < 2
        \/ (isShort param = true /\ 2 < len param)))
  /\ (forall args' f' name,
       Parse HelpKind intSize f (param :: rest)
       = Ret (args', f', Some (ErrNeedsArgument name)) ->
       args' = param :: rest /\ f' = f /\ name = Name f).
Proof.
  intros Hn. rewrite Parse_cons.
  assert (Hc : needs_argument_check f (param :: rest) param = true
               <-> (List.length (param :: rest) < 2
                    \/ (isShort param = true /\ 2 < len param))).
  { unfold needs_argument_check. rewrite Hn. cbn [andb].
    rewrite orb_true_iff, andb_true_iff, !Nat.ltb_lt. reflexivity. }
  destruct (needs_argument_check f (param :: rest) param) eqn:Echeck.
  - split.
    + split; [intros _; now apply Hc |].
      intros _. now exists (param :: rest), f, (Name f).
    + intros args' f' name E. inversion E; subst. now repeat split.
  - assert (Hno : forall args' f' name,
               (if WasSpecified f && negb (IsMulti HelpKind f)
                then Ret (param :: rest, f, Some (ErrOnlyOnce (Name f)))
                else consume f (param :: rest) param)
               <> Ret (args', f', Some (ErrNeedsArgument name))).
    { intros args' f' name.
      destruct (WasSpecified f && negb (IsMulti HelpKind f)); [discriminate |].
      intros E. apply consume_error in E. destruct E as [E _]. now apply (E name). }
    split.
    + split.
      * intros (args' & f' & name & E). now apply Hno in E.
      * intros H. apply Hc in H. discriminate.
    + intros args' f' name E. now apply Hno in E.
Qed.

Lemma set_WasSpecified_same (f : Flag U) :
  WasSpecified f = true -> set_WasSpecified f true = f.
Proof. destruct f; simpl. now intros ->. Qed.

(** C5, as the code has it.  A flag that is already specified and whose
    first token passes the needs-argument test: if it is not
    multi-valued, [Parse] fails with the already-specified error and
    returns the list and the flag as they were; if it is multi-valued,
    the test is passed, the tokens are consumed and the outcome is that
    of [setValue] on the flag, which for a slice field without a
    [Marshaler] is the unsupported-type error. *)
Theorem Parse_already_specified (f : Flag U) (param : string) (rest : list string) :
  WasSpecified f = true ->
  needs_argument_check f (param :: rest) param = false ->
  (IsMulti HelpKind f = false ->
     Parse HelpKind intSize f (param :: rest)
     = Ret (param :: rest, f, Some (ErrOnlyOnce (Name f))))
  /\ (IsMulti HelpKind f = true ->
        (exists args' v,
           List.length args' <= List.length (param :: rest)
           /\ Parse HelpKind intSize f (param :: rest)
              = ('(f', err) <- setValue intSize f v ;; Ret (args', f', err)))
        /\ (forall t u, value f = OtherV t u -> t_marshaler t = None ->
              exists args',
                Parse HelpKind intSize f (param :: rest)
                = Ret (args', f, Some (ErrUnsupportedType (t_name t))))).
Proof.
  intros Hw Hc. rewrite Parse_cons, Hc, Hw. split.
  - intros ->. reflexivity.
  - intros ->. cbn [negb andb]. unfold consume.
    rewrite (set_WasSpecified_same f Hw).
    assert (Hcons : exists args' v,
               List.length args' <= List.length (param :: rest)
               /\ (if isShort param && (2 <? len param)%nat
                   then rest0 <- slice_from param 2 ;;
                        args' <- set_index (param :: rest) 0 ("-" ++ rest0)%string ;;
                        Ret (args', "")
                   else if NeedsExtraValue f
                        then v <- index (param :: rest) 1 ;;
                             args' <- slice_list (param :: rest) 2 ;;
                             Ret (args', v)
                        else args' <- slice_list (param :: rest) 1 ;;
                             Ret (args', ""))
                  = Ret (args', v)).
    { unfold needs_argument_check in Hc.
      destruct (isShort param && (2 <? len param)%nat) eqn:Ecl.
      - apply andb_true_iff in Ecl. destruct Ecl as [_ El].
        apply Nat.ltb_lt in El.
        unfold slice_from, slice.
        replace (2 <=? len param)%nat with true
          by (symmetry; apply Nat.leb_le; lia).
        rewrite Nat.leb_refl. cbn [andb bind set_index].
        eexists _, _. split; [| reflexivity]. simpl. lia.
      - rewrite orb_false_r in Hc.
        destruct (NeedsExtraValue f); cbn [andb] in Hc.
        + destruct rest as [|v rest']; [discriminate Hc |].
          exists rest', v. split; [simpl; lia | reflexivity].
        + exists rest, "". split; [simpl; lia | reflexivity]. }
    destruct Hcons as (args' & v & Hlen & ->). cbn [bind]. split.
    + now exists args', v.
    + intros t u Hv Hm. exists args'. unfold setValue, marshaler_of.
      rewrite Hv, Hm. reflexivity.
Qed.

(** A flag bound to a [bool] field that is false. *)
Definition bool_flag (short : string) : Flag U :=
  {| Short := short; Long := ""; MutexGroups := []; Description := "";
     Obligatory := false; WasSpecified := false; value := BoolV false |}.

Lemma slice_from_2 (a b : ascii) (s : string) :
  slice_from (String a (String b s)) 2 = Ret s.
Proof. now rewrite !slice_from_S, slice_from_0. Qed.

Lemma setValue_no_extra (f : Flag U) (s : string) :
  NeedsExtraValue f = false ->
  exists err, setValue intSize f s
              = Ret (set_value f (match value f with
                                  | BoolV _ => BoolV true
                                  | v => v
                                  end), err).
Proof.
  unfold NeedsExtraValue, setValue, marshaler_of.
  destruct (value f); simpl; try discriminate; intros _; eexists; reflexivity.
Qed.

(** C1, as the code has it.  For a flag that needs no value and is not
    rejected as already specified, [Parse] on a list whose first token
    is a short-style cluster ["-" c tail] with [tail] not empty returns
    the list with that token replaced by ["-" tail]: the same length,
    one name byte consumed; the flag is marked as specified.  Done for
    three [bool] flags a, b and c in turn on "-abc", this sets the three
    fields to true and leaves no argument. *)
Theorem Parse_short_cluster :
  (forall (f : Flag U) (c : ascii) (tail : string) (args : list string),
      NeedsExtraValue f = false ->
      WasSpecified f = false \/ IsMulti HelpKind f = true ->
      c <> "-"%char -> tail <> "" ->
      exists f' err,
        Parse HelpKind intSize f (String "-" (String c tail) :: args)
        = Ret (String "-" tail :: args, f', err)
        /\ List.length (String "-" tail :: args)
           = List.length (String "-" (String c tail) :: args)
        /\ WasSpecified f' = true)
  /\ (exists a' b' c' : Flag U,
        Handles (bool_flag "a") "-abc" = Ret true
        /\ Parse HelpKind intSize (bool_flag "a") ["-abc"] = Ret (["-bc"], a', None)
        /\ Handles (bool_flag "b") "-bc" = Ret true
        /\ Parse HelpKind intSize (bool_flag "b") ["-bc"] = Ret (["-c"], b', None)
        /\ Handles (bool_flag "c") "-c" = Ret true
        /\ Parse HelpKind intSize (bool_flag "c") ["-c"] = Ret ([], c', None)
        /\ value a' = BoolV true /\ value b' = BoolV true
        /\ value c' = BoolV true).
Proof.
  split.
  - intros f c tail args Hn Hw Hc Ht. rewrite Parse_cons.
    unfold needs_argument_check. rewrite Hn. cbn [andb].
    replace (WasSpecified f && negb (IsMulti HelpKind f)) with false
      by (destruct Hw as [-> | ->]; [reflexivity | now rewrite andb_false_r]).
    unfold consume. destruct (isShort_short c tail Hc) as [-> _].
    replace (2 <? len (String "-" (String c tail)))%nat with true
      by (symmetry; apply Nat.ltb_lt; destruct tail; [now elim Ht | simpl; lia]).
    cbn [andb]. rewrite slice_from_2. cbn [bind set_index].
    destruct (setValue_no_extra (set_WasSpecified f true) "") as [err ->];
      [exact Hn |].
    cbn [bind]. eexists _, err. repeat split.
  - eexists _, _, _. repeat split.
Qed.

(** *** setValue *)

(** C4.  For a field whose type implements [Marshaler]: when
    [MarshalGoption] returns an error, [setValue] returns that error
    and the field holds the value constructed for the call (the zero
    value, or the new element as the call left it behind a pointer),
    whatever it held before. *)
Theorem setValue_overwrites_on_error (f : Flag U) (t : OtherType U)
    (m : Marshaler U) (old u : U) (s msg : string) :
  value f = OtherV t old ->
  t_marshaler t = Some m ->
  MarshalGoption m (if Kind_eqb (t_kind t) KPtr then m_newptr m else m_zero m) s
  = MReturn u (Some msg) ->
  exists f',
    setValue intSize f s = Ret (f', Some (ErrOther msg))
    /\ value f' = OtherV t (if Kind_eqb (t_kind t) KPtr then u else m_zero m).
Proof.
  intros Hv Hm Hcall. unfold setValue, marshaler_of. rewrite Hv, Hm, Hcall.
  eexists. split; [reflexivity |]. simpl.
  now destruct (Kind_eqb (t_kind t) KPtr).
Qed.

(** *** The integer converter *)

#[local] Open Scope Z_scope.

(** A decimal literal as [ParseInt] takes it in base 10: an optional
    sign, then one or more digits; and the integer it denotes. *)
Definition is_digit (c : ascii) : bool :=
  ((48 <=? N_of_ascii c) && (N_of_ascii c <=? 57))%N.

Definition digit_value (c : ascii) : Z := Z.of_N (N_of_ascii c) - 48.

Fixpoint all_digits (s : string) : bool :=
  match s with
  | EmptyString => true
  | String c s' => is_digit c && all_digits s'
  end.

Fixpoint digits_value (acc : Z) (s : string) : Z :=
  match s with
  | EmptyString => acc
  | String c s' => digits_value (acc * 10 + digit_value c) s'
  end.

Definition split_sign (s : string) : bool * string :=
  match s with
  | String c s' =>
      if Ascii.eqb c "+" then (false, s')
      else if Ascii.eqb c "-" then (true, s')
      else (false, s)
  | EmptyString => (false, s)
  end.

Definition is_decimal (s : string) : bool :=
  match snd (split_sign s) with
  | EmptyString => false
  | d => all_digits d
  end.

Definition decimal_value (s : string) : Z :=
  let v := digits_value 0 (snd (split_sign s)) in
  if fst (split_sign s) then - v else v.

Definition in_int64 (x : Z) : Prop := - 2 ^ 63 <= x < 2 ^ 63.

Lemma is_digit_range (c : ascii) :
  is_digit c = true -> 0 <= digit_value c <= 9.
Proof.
  unfold is_digit, digit_value. rewrite andb_true_iff, !N.leb_le. lia.
Qed.

Lemma is_digit_test (c : ascii) :
  (48 <=? Z.of_N (N_of_ascii c)) && (Z.of_N (N_of_ascii c) <=? 57) = is_digit c.
Proof.
  unfold is_digit.
  destruct (N.leb_spec 48 (N_of_ascii c)), (N.leb_spec (N_of_ascii c) 57),
    (Z.leb_spec 48 (Z.of_N (N_of_ascii c))),
    (Z.leb_spec (Z.of_N (N_of_ascii c)) 57); simpl; try reflexivity; lia.
Qed.

Lemma digits_value_ge (s : string) (n : Z) :
  all_digits s = true -> 0 <= n -> n <= digits_value n s.
Proof.
  revert n. induction s as [|c s IH]; simpl; intros n Hd Hn; [lia |].
  apply andb_true_iff in Hd. destruct Hd as [Hc Hs].
  apply is_digit_range in Hc.
  specialize (IH (n * 10 + digit_value c) Hs). lia.
Qed.

(** The loop of [ParseUint] against the value of the digits: it gives
    the value when that fits 64 bits, a range error when it does not,
    and an error when a byte is not a digit. *)
Lemma ParseUint_loop_spec (s : string) (n : Z) :
  0 <= n <= maxUint64 ->
  if all_digits s
  then if digits_value n s <=? maxUint64
       then ParseUint_loop s n = inl (digits_value n s)
       else ParseUint_loop s n = inr ErrRange
  else exists e, ParseUint_loop s n = inr e.
Proof.
  revert n. induction s as [|c s IH]; intros n Hn.
  - simpl. destruct (Z.leb_spec n maxUint64); [reflexivity | lia].
  - cbn [all_digits ParseUint_loop digits_value]. rewrite is_digit_test.
    destruct (is_digit c) eqn:Hc; cbn [andb]; [| now exists ErrSyntax].
    apply is_digit_range in Hc. fold (digit_value c).
    unfold maxUint64 in *.
    change (2 ^ 64 - 1) with 18446744073709551615 in *.
    change (18446744073709551615 / 10 + 1) with 1844674407370955162.
    destruct (Z.leb_spec 1844674407370955162 n) as [Hcut|Hcut].
    + destruct (all_digits s) eqn:Hs; [| now exists ErrRange].
      pose proof (digits_value_ge s (n * 10 + digit_value c) Hs ltac:(lia)).
      destruct (Z.leb_spec (digits_value (n * 10 + digit_value c) s)
                  18446744073709551615); [lia | reflexivity].
    + destruct (Z.ltb_spec 18446744073709551615 (n * 10 + digit_value c))
        as [Hov|Hov].
      * destruct (all_digits s) eqn:Hs; [| now exists ErrRange].
        pose proof (digits_value_ge s (n * 10 + digit_value c) Hs ltac:(lia)).
        destruct (Z.leb_spec (digits_value (n * 10 + digit_value c) s)
                    18446744073709551615); [lia | reflexivity].
      * apply IH. lia.
Qed.

Lemma ParseUint_spec (d : string) :
  if match d with EmptyString => false | _ => all_digits d end
  then if digits_value 0 d <=? maxUint64
       then ParseUint d = inl (digits_value 0 d)
       else ParseUint d = inr ErrRange
  else exists e, ParseUint d = inr e.
Proof.
  destruct d as [|c d]; [now exists ErrSyntax |].
  apply (ParseUint_loop_spec (String c d) 0). unfold maxUint64. lia.
Qed.

Lemma ParseInt_split (s : string) :
  ParseInt s =
  match s with
  | EmptyString => inr ErrSyntax
  | _ =>
      match ParseUint (snd (split_sign s)) with
      | inr e => inr e
      | inl un =>
          if fst (split_sign s)
          then if 2 ^ 63 <? un then inr ErrRange else inl (- un)
          else if 2 ^ 63 <=? un then inr ErrRange else inl un
      end
  end.
Proof.
  destruct s as [|c s]; [reflexivity |].
  unfold ParseInt, split_sign.
  destruct (Ascii.eqb c "+"); [| destruct (Ascii.eqb c "-")]; cbn [fst snd negb andb];
    destruct (ParseUint _) as [un|[|]]; try reflexivity;
    destruct (2 ^ 63 <=? un); reflexivity.
Qed.

(** [ParseInt] gives the value of a decimal literal that fits the signed
    64-bit range, and fails on every other string. *)
Lemma ParseInt_spec (s : string) :
  (is_decimal s = true /\ in_int64 (decimal_value s) ->
     ParseInt s = inl (decimal_value s))
  /\ (~ (is_decimal s = true /\ in_int64 (decimal_value s)) ->
     exists e, ParseInt s = inr e).
Proof.
  rewrite ParseInt_split. unfold is_decimal, decimal_value, in_int64.
  pose proof (ParseUint_spec (snd (split_sign s))) as HU.
  assert (Hempty : s = "" -> snd (split_sign s) = "") by (now intros ->).
  destruct (snd (split_sign s)) as [|c d] eqn:Ed.
  - split; [intros [H _]; discriminate H |].
    intros _. destruct s; [now exists ErrSyntax |].
    destruct HU as [e ->]. now exists e.
  - assert (Hs : s <> "") by (intros E; specialize (Hempty E); discriminate).
    destruct s as [|c0 s0]; [now elim Hs |].
    destruct (all_digits (String c d)) eqn:Hd.
    + pose proof (digits_value_ge (String c d) 0 Hd ltac:(lia)) as Hge.
      set (v := digits_value 0 (String c d)) in *.
      unfold maxUint64 in HU.
      change (2 ^ 64 - 1) with 18446744073709551615 in HU.
      change (2 ^ 63) with 9223372036854775808.
      destruct (Z.leb_spec v 18446744073709551615) as [Hm|Hm]; rewrite HU.
      * destruct (fst (split_sign (String c0 s0))).
        -- destruct (Z.ltb_spec 9223372036854775808 v) as [Hlt|Hle]; split.
           ++ intros [_ Hr]. lia.
           ++ intros _. now eexists.
           ++ intros _. reflexivity.
           ++ intros Hn. elim Hn. split; [reflexivity | lia].
        -- destruct (Z.leb_spec 9223372036854775808 v) as [Hle|Hlt]; split.
           ++ intros [_ Hr]. lia.
           ++ intros _. now eexists.
           ++ intros _. reflexivity.
           ++ intros Hn. elim Hn. split; [reflexivity | lia].
      * split; [| intros _; now eexists].
        intros [_ Hr]. destruct (fst (split_sign (String c0 s0))); lia.
    + destruct HU as [e ->]. split; [intros [H _]; discriminate H |].
      intros _. now exists e.
Qed.

(** C8, as the code has it.  [intValueParser] reads its string as a
    decimal literal (an optional sign and digits).  If the literal fits
    the signed 64-bit range the field becomes its value converted to
    [int] (the value itself where [int] has 64 bits) and no error is
    returned; on every other string, a literal out of that range
    included, the field is left and a conversion error is returned. *)
Theorem intValueParser_spec (v : Value U) (s : string) :
  (is_decimal s = true /\ in_int64 (decimal_value s) ->
     intValueParser intSize v s = (IntV (to_int intSize (decimal_value s)), None)
     /\ (intSize = 64 -> to_int intSize (decimal_value s) = decimal_value s))
  /\ (~ (is_decimal s = true /\ in_int64 (decimal_value s)) ->
     exists e, intValueParser intSize v s = (v, Some (ErrNum s e))).
Proof.
  destruct (ParseInt_spec s) as [Hok Hbad]. unfold intValueParser. split.
  - intros H. rewrite (Hok H). split; [reflexivity |].
    intros ->. destruct H as [_ H]. unfold in_int64 in H. unfold to_int.
    change (2 ^ (64 - 1)) with 9223372036854775808.
    change (2 ^ 63) with 9223372036854775808 in H.
    change (2 ^ 64) with 18446744073709551616.
    rewrite Z.mod_small by lia. lia.
  - intros H. destruct (Hbad H) as [e ->]. now exists e.
Qed.

End Props.

(** *** The theorems at concrete flags *)

(** A flag bound to a [string] field, and a [bool] flag that was
    specified before. *)
Definition name_flag : Flag unit :=
  {| Short := "n"; Long := "name"; MutexGroups := []; Description := "";
     Obligatory := false; WasSpecified := false; value := StringV "" |}.

Definition seen_flag : Flag unit :=
  {| Short := "a"; Long := ""; MutexGroups := []; Description := "";
     Obligatory := false; WasSpecified := true; value := BoolV true |}.

(** A flag bound to a field of type [[]string], specified before. *)
Definition strings_type : OtherType unit :=
  {| t_name := ""; t_kind := KSlice; t_marshaler := None |}.

Definition list_flag : Flag unit :=
  {| Short := "l"; Long := "list"; MutexGroups := []; Description := "";
     Obligatory := false; WasSpecified := true; value := OtherV strings_type tt |}.

(** A [Marshaler] with a value receiver that rejects every string; the
    content of the field is a string here. *)
Definition level_marshaler : Marshaler string :=
  {| m_zero := ""; m_newptr := "";
     MarshalGoption := fun u s => MReturn u (Some "bad level") |}.

Definition level_type : OtherType string :=
  {| t_name := "Level"; t_kind := KOther; t_marshaler := Some level_marshaler |}.

Definition level_flag : Flag string :=
  {| Short := "l"; Long := "level"; MutexGroups := []; Description := "";
     Obligatory := false; WasSpecified := false;
     value := OtherV level_type "debug" |}.

Lemma Handles_panics_only_on_dash_witness :
  (HasPrefix "-abc" "-" = true -> (2 <= len "-abc")%nat)
  /\ exists b, Handles name_flag "-abc" = Ret b.
Proof.
  assert (H : HasPrefix "-abc" "-" = true -> (2 <= len "-abc")%nat)
    by (intros _; simpl; lia).
  split; [exact H |].
  exact (proj2 (Handles_panics_only_on_dash name_flag) "-abc" H).
Defined.

Lemma Parse_needs_argument_iff_witness :
  NeedsExtraValue name_flag = true
  /\ Parse KBool 64 name_flag ["--name"]
     = Ret (["--name"], name_flag, Some (ErrNeedsArgument "--name")).
Proof.
  split; [reflexivity |].
  destruct (Parse_needs_argument_iff KBool 64 name_flag "--name" [] eq_refl)
    as [[_ Hfail] Hsame].
  destruct Hfail as (args' & f' & name & E); [left; simpl; lia |].
  destruct (Hsame args' f' name E) as (-> & -> & ->). exact E.
Defined.

Lemma Parse_already_specified_witness :
  WasSpecified seen_flag = true
  /\ IsMulti KBool seen_flag = false
  /\ Parse KBool 64 seen_flag ["-a"; "x"]
     = Ret (["-a"; "x"], seen_flag, Some (ErrOnlyOnce "-a")).
Proof.
  split; [reflexivity |]. split; [reflexivity |].
  exact (proj1 (Parse_already_specified KBool 64 seen_flag "-a" ["x"]
                  eq_refl eq_refl) eq_refl).
Defined.

(** The claim C5 as it is written does not hold for a multi-valued flag:
    the call on a [[]string] field that was specified before ends in
    the unsupported-type error, and the field is as it was. *)
Lemma Parse_multi_unsupported :
  WasSpecified list_flag = true
  /\ IsMulti KBool list_flag = true
  /\ Parse KBool 64 list_flag ["--list"; "x"]
     = Ret ([], list_flag, Some (ErrUnsupportedType ""))
  /\ ~ (exists args' f', Parse KBool 64 list_flag ["--list"; "x"]
                         = Ret (args', f', None)).
Proof.
  repeat split. intros (args' & f' & E). discriminate E.
Qed.

Lemma Parse_short_cluster_witness :
  NeedsExtraValue (bool_flag (U := unit) "a") = false
  /\ WasSpecified (bool_flag (U := unit) "a") = false
  /\ exists (f' : Flag unit) err,
       Parse KBool 64 (bool_flag "a") ["-abc"; "x"] = Ret (["-bc"; "x"], f', err)
       /\ List.length ["-bc"; "x"] = List.length ["-abc"; "x"]
       /\ WasSpecified f' = true.
Proof.
  split; [reflexivity |]. split; [reflexivity |].
  apply (proj1 (Parse_short_cluster (U := unit) KBool 64)
           (bool_flag "a") "a"%char "bc" ["x"]).
  - reflexivity.
  - left. reflexivity.
  - discriminate.
  - discriminate.
Defined.

(** The claim C1 as it is written does not hold for a flag that was
    specified before: "-abc" stays as it is and the call fails. *)
Lemma Parse_cluster_on_specified_flag :
  NeedsExtraValue seen_flag = false
  /\ Parse KBool 64 seen_flag ["-abc"]
     = Ret (["-abc"], seen_flag, Some (ErrOnlyOnce "-a"))
  /\ ~ (exists f' err, Parse KBool 64 seen_flag ["-abc"] = Ret (["-bc"], f', err)).
Proof.
  repeat split. intros (f' & err & E). discriminate E.
Qed.

Lemma setValue_overwrites_on_error_witness :
  exists f',
    setValue 64 level_flag "verbose" = Ret (f', Some (ErrOther "bad level"))
    /\ value f' = OtherV level_type "".
Proof.
  exact (setValue_overwrites_on_error 64 level_flag level_type level_marshaler
           "debug" "" "verbose" "bad level" eq_refl eq_refl eq_refl).
Defined.

Lemma intValueParser_spec_witness :
  intValueParser (U := unit) 64 (IntV 0) "-42" = (IntV (-42), None).
Proof.
  assert (H : is_decimal "-42" = true /\ in_int64 (decimal_value "-42")).
  { split; [reflexivity |]. unfold in_int64.
    change (decimal_value "-42") with (-42)%Z. lia. }
  destruct (proj1 (intValueParser_spec (U := unit) 64 (IntV 0) "-42") H)
    as [E Hval].
  rewrite (Hval eq_refl) in E. exact E.
Defined.

(** The claim C8 as it is written does not hold: a string of digits
    beyond the 64-bit range is numeric and is rejected. *)
Lemma intValueParser_rejects_large_literal :
  is_decimal "9223372036854775808" = true
  /\ decimal_value "9223372036854775808" = (2 ^ 63)%Z
  /\ intValueParser (U := unit) 64 (IntV 0) "9223372036854775808"
     = (IntV 0, Some (ErrNum "9223372036854775808" ErrRange)).
Proof. repeat split. Qed.

End FlagProps.

(** * Properties of the matcher and of [optionRegexp] *)

Module RegexpProps.
Import Go Runes Regexp.

(** The length of the longest prefix of [s] made of runes of [p]. *)
Fixpoint run_len (p : rune -> bool) (s : str) : nat :=
  match s with
  | y :: s' => if p y then S (run_len p s') else 0
  | [] => 0
  end.

Lemma run_len_le (p : rune -> bool) (s : str) : run_len p s <= List.length s.
Proof.
  induction s as [|y s IH]; simpl; [lia |]. destruct (p y); simpl; lia.
Qed.

Lemma run_len_firstn (p : rune -> bool) (s : str) :
  forallb p (firstn (run_len p s) s) = true.
Proof.
  induction s as [|y s IH]; simpl; [reflexivity |].
  destruct (p y) eqn:E; simpl; [now rewrite E | reflexivity].
Qed.

Lemma run_len_app (p : rune -> bool) (w rest : str) :
  forallb p w = true ->
  match rest with y :: _ => p y = false | [] => True end ->
  run_len p (w ++ rest) = List.length w.
Proof.
  intros Hw Hr. induction w as [|y w IH]; simpl in *.
  - destruct rest as [|y r]; simpl; [reflexivity | now rewrite Hr].
  - apply andb_true_iff in Hw. destruct Hw as [-> Hw]. now rewrite IH.
Qed.

(** A continuation that fails whenever the input starts with a rune of
    [p]: what follows a greedy [[p]+] when nothing of [p] may follow. *)
Definition fails_on (p : rune -> bool) (k : cont) : Prop :=
  forall pos y s c, p y = true -> k pos (y :: s) c = None.

(** [[p]+] followed by such a continuation takes the longest run. *)
Lemma plus_class (p : rune -> bool) (k : cont) :
  fails_on p k ->
  forall fuel pos s c,
    List.length s <= fuel ->
    plus_loop (m (Cls p)) fuel pos s c k =
    match run_len p s with
    | O => None
    | S n => k (pos + S n) (skipn (S n) s) c
    end.
Proof.
  intros Hk. induction fuel as [|fuel IH]; intros pos s c Hlen.
  - destruct s; [reflexivity | simpl in Hlen; lia].
  - destruct s as [|y s]; [reflexivity |].
    cbn [plus_loop m run_len]. destruct (p y) eqn:Hy; [| reflexivity].
    simpl in Hlen. rewrite IH by lia.
    destruct (run_len p s) as [|n] eqn:Hrun.
    + replace (pos + 1) with (S pos) by lia. reflexivity.
    + replace (S pos + S n) with (pos + S (S n)) by lia.
      change (skipn (S (S n)) (y :: s)) with (skipn (S n) s).
      destruct (k (pos + S (S n)) (skipn (S n) s) c) as [res|]; [reflexivity |].
      destruct s as [|z s]; [discriminate Hrun |].
      simpl in Hrun. destruct (p z) eqn:Hz; [| discriminate Hrun].
      now apply Hk.
Qed.

Lemma firstn_plus (s : str) (n n' : nat) :
  firstn (n + n') s = firstn n s ++ firstn n' (skipn n s).
Proof.
  revert s. induction n as [|n IH]; intros s; [reflexivity |].
  destruct s as [|y s]; simpl; [now rewrite firstn_nil | now rewrite IH].
Qed.

(** A body of which every success is one of the continuation, on the
    same groups, after at least one rune, the runes taken being a text
    of [P]. *)
Definition advances (P : str -> Prop)
    (body : nat -> str -> caps -> cont -> option caps) : Prop :=
  forall pos s c k res,
    body pos s c k = Some res ->
    exists n, 0 < n <= List.length s /\ P (firstn n s)
              /\ k (pos + n) (skipn n s) c = Some res.

(** Then every success of [body+] is one too, if [P] holds of the
    texts put one after the other. *)
Lemma plus_loop_advances (P : str -> Prop)
    (body : nat -> str -> caps -> cont -> option caps) :
  (forall a b, P a -> P b -> P (a ++ b)) ->
  advances P body -> forall fuel, advances P (plus_loop body fuel).
Proof.
  intros HP Hb. induction fuel as [|fuel IH]; intros pos s c k res H;
    cbn [plus_loop] in H; apply Hb in H; destruct H as (n & Hn & Hp & H).
  - exists n. split; [lia | split; [exact Hp | exact H]].
  - destruct (plus_loop body fuel (pos + n) (skipn n s) c k) as [res'|] eqn:E.
    + injection H as <-. apply IH in E. destruct E as (n' & Hn' & Hp' & E).
      rewrite length_skipn in Hn'. rewrite skipn_skipn in E.
      exists (n + n'). split; [lia |]. split.
      * rewrite firstn_plus. now apply HP.
      * now replace (pos + (n + n')) with (pos + n + n') by lia;
          replace (n + n') with (n' + n) by lia.
    + exists n. split; [lia | split; [exact Hp | exact H]].
Qed.

(** With [^] in front, a match starts at position 0 or nowhere. *)
Lemma search_anchored (r : regex) (s : str) :
  search (Seq Bol r) 0 s = match_at (Seq Bol r) 0 s.
Proof.
  assert (H : forall s pos, search (Seq Bol r) (S pos) s = None).
  { clear s. induction s as [|y s IH]; intros pos; simpl; [reflexivity |].
    apply IH. }
  destruct s as [|y s]; cbn [search].
  - now destruct (match_at (Seq Bol r) 0 []).
  - rewrite H. now destruct (match_at (Seq Bol r) 0 (y :: s)).
Qed.

End RegexpProps.

(** * Properties of parseTag *)

Module TagProps.
Import Go Runes Regexp RegexpProps TagGo.

(** ** What [optionRegexp] matches *)

(** The groups before the match: three pairs of -1. *)
Definition init : caps := repeat (-1)%Z (2 * (ngroups optionRegexp + 1)).

(** The continuations of the parts of [optionRegexp]: the end of the
    match, the separator after group 1, the closing quote and the value
    after the key of a value option. *)
Definition k_end : cont := fun pos _ c => Some (set_cap 0 0 pos c).

Definition k_sep : cont :=
  fun pos s c => m (Alt (Chr comma) Eol) pos s (set_cap 1 0 pos c) k_end.

Definition k_close : cont := fun pos s c => m (Chr quote) pos s c k_sep.

Definition k_val : cont :=
  fun pos s c => m (Seq (Chr equals) _QUOTED_STRING_REGEXP) pos s c k_sep.

Definition quoted_body : nat -> str -> caps -> cont -> option caps :=
  m (Alt (Seq (Chr backslash) (Cls any_but_newline)) (Cls not_quote)).

Lemma match_at_unfold (s : str) :
  match_at optionRegexp 0 s =
  match m _FLAG_REGEXP 0 s init k_sep with
  | Some res => Some res
  | None =>
      match plus_loop (m (Cls word_or_dash)) (List.length s) 0 s init k_sep with
      | Some res => Some res
      | None => plus_loop (m (Cls word_or_dash)) (List.length s) 0 s init k_val
      end
  end.
Proof. reflexivity. Qed.

Lemma k_sep_eval (pos : nat) (s : str) (c : caps) :
  k_sep pos s c =
  match s with
  | [] => Some (set_cap 0 0 pos (set_cap 1 0 pos c))
  | y :: _ =>
      if N.eqb y comma then Some (set_cap 0 0 (S pos) (set_cap 1 0 pos c))
      else None
  end.
Proof.
  unfold k_sep. destruct s as [|y s]; [reflexivity |].
  cbn [m]. now destruct (N.eqb y comma).
Qed.

Lemma word_or_dash_not (y : rune) :
  word_or_dash y = true ->
  N.eqb y comma = false /\ N.eqb y equals = false /\ N.eqb y quote = false
  /\ isSpace y = false.
Proof.
  unfold word_or_dash, comma, equals, quote, isSpace. intros H.
  repeat rewrite orb_true_iff in H. repeat rewrite andb_true_iff in H.
  repeat rewrite N.leb_le in H. repeat rewrite N.eqb_eq in H.
  assert (Hy : (45 <= y <= 122)%N /\ y <> 61%N) by lia.
  destruct Hy as [Hy Hy'].
  repeat split; try (apply N.eqb_neq; lia).
  destruct (N.leb_spec y 255); [| lia].
  repeat rewrite orb_false_iff. repeat split; apply N.eqb_neq; lia.
Qed.

Lemma k_sep_fails : fails_on word_or_dash k_sep.
Proof.
  intros pos y s c Hy. rewrite k_sep_eval.
  destruct (word_or_dash_not y Hy) as (-> & _). reflexivity.
Qed.

Lemma k_val_fails : fails_on word_or_dash k_val.
Proof.
  intros pos y s c Hy. unfold k_val. cbn [m _QUOTED_STRING_REGEXP].
  destruct (word_or_dash_not y Hy) as (_ & -> & _). reflexivity.
Qed.

Lemma word_or_dash_dash : word_or_dash dash = true.
Proof. reflexivity. Qed.

(** The first alternative, [--?[[:word:]-]+]: a dash and a run of at
    least one more rune of the class. *)
Lemma flag_regexp_match (s : str) :
  m _FLAG_REGEXP 0 s init k_sep =
  match s with
  | y :: s1 =>
      if N.eqb y dash then
        match run_len word_or_dash s1 with
        | O => None
        | S n => k_sep (S (S n)) (skipn (S n) s1) init
        end
      else None
  | [] => None
  end.
Proof.
  destruct s as [|y s1]; [reflexivity |].
  cbn [_FLAG_REGEXP m]. destruct (N.eqb y dash); [| reflexivity].
  destruct s1 as [|z s2].
  - reflexivity.
  - rewrite !(plus_class _ _ k_sep_fails) by lia.
    destruct (N.eqb_spec z dash) as [->|Hz].
    + cbn [run_len]. rewrite word_or_dash_dash.
      destruct (run_len word_or_dash s2) as [|n].
      * reflexivity.
      * change (2 + S n) with (S (S (S n))).
        change (1 + S (S n)) with (S (S (S n))).
        change (skipn (S (S n)) (dash :: s2)) with (skipn (S n) s2).
        now destruct (k_sep (S (S (S n))) (skipn (S n) s2) init).
    + reflexivity.
Qed.

(** The match of [optionRegexp] at the start of [s]: the longest run
    [w] of [[[:word:]-]], not empty, followed by the end of [s] or a
    comma; or else followed by the quoted value. *)
Lemma match_at_option (s : str) :
  match_at optionRegexp 0 s =
  match run_len word_or_dash s with
  | O => None
  | S n =>
      match k_sep (S n) (skipn (S n) s) init with
      | Some res => Some res
      | None => k_val (S n) (skipn (S n) s) init
      end
  end.
Proof.
  rewrite match_at_unfold, flag_regexp_match.
  rewrite !(plus_class _ _ k_sep_fails), !(plus_class _ _ k_val_fails) by lia.
  destruct s as [|y s1]; [reflexivity |].
  cbn [run_len]. destruct (N.eqb_spec y dash) as [->|Hy].
  - rewrite word_or_dash_dash.
    destruct (run_len word_or_dash s1) as [|n]; [reflexivity |].
    change (0 + S (S n)) with (S (S n)).
    change (skipn (S (S n)) (dash :: s1)) with (skipn (S n) s1).
    now destruct (k_sep (S (S n)) (skipn (S n) s1) init).
  - destruct (word_or_dash y); reflexivity.
Qed.

(** The texts of [(?:\\.|[^'])*]: escapes (a backslash and a rune that
    is not a newline) and runes that are not a quote, one after the
    other. *)
Inductive value_runes : str -> Prop :=
| runes_nil : value_runes []
| runes_rune y v : not_quote y = true -> value_runes v -> value_runes (y :: v)
| runes_escape z v :
    any_but_newline z = true -> value_runes v ->
    value_runes (backslash :: z :: v).

Lemma value_runes_app (a b : str) :
  value_runes a -> value_runes b -> value_runes (a ++ b).
Proof.
  intros Ha Hb. induction Ha as [| y v Hy _ IH | z v Hz _ IH]; cbn [app].
  - exact Hb.
  - now apply runes_rune.
  - now apply runes_escape.
Qed.

Lemma quoted_body_advances : advances value_runes quoted_body.
Proof.
  assert (One : forall pos y s c (k : cont) res,
             not_quote y = true -> k (S pos) s c = Some res ->
             exists n, 0 < n <= List.length (y :: s)
                       /\ value_runes (firstn n (y :: s))
                       /\ k (pos + n) (skipn n (y :: s)) c = Some res).
  { intros pos y s c k res Hy H. exists 1. split; [simpl; lia |]. split.
    - cbn [firstn]. apply runes_rune; [exact Hy | constructor].
    - now replace (pos + 1) with (S pos) by lia. }
  intros pos s c k res. unfold quoted_body.
  destruct s as [|y s]; [discriminate |]. cbn [m].
  destruct (N.eqb_spec y backslash) as [->|Hy].
  - destruct s as [|z s].
    + destruct (not_quote backslash) eqn:Hq; [| discriminate]. now apply One.
    + destruct (any_but_newline z) eqn:Hz.
      * destruct (k (S (S pos)) s c) as [r|] eqn:E.
        -- intros H. injection H as <-. exists 2. split; [simpl; lia |]. split.
           ++ cbn [firstn]. apply runes_escape; [exact Hz | constructor].
           ++ now replace (pos + 2) with (S (S pos)) by lia.
        -- destruct (not_quote backslash) eqn:Hq; [| discriminate]. now apply One.
      * destruct (not_quote backslash) eqn:Hq; [| discriminate]. now apply One.
  - destruct (not_quote y) eqn:Hq; [| discriminate]. now apply One.
Qed.

(** A success of the value part: [='], at least one rune, a quote, and
    then the separator; group 2 is what lies between the quotes. *)
Lemma k_val_success (pos : nat) (s : str) (res : caps) :
  k_val pos s init = Some res ->
  exists n rest,
    0 < n /\ n + 3 <= List.length s
    /\ skipn (n + 3) s = rest
    /\ (exists v, List.length v = n /\ value_runes v
                  /\ s = equals :: quote :: v ++ quote :: rest)
    /\ k_sep (pos + n + 3) rest (set_cap 2 (pos + 2) (pos + 2 + n) init) = Some res.
Proof.
  unfold k_val. cbn [_QUOTED_STRING_REGEXP m].
  destruct s as [|y s]; [discriminate |].
  destruct (N.eqb_spec y equals) as [->|_]; [| discriminate].
  destruct s as [|z s]; [discriminate |].
  destruct (N.eqb_spec z quote) as [->|_]; [| discriminate].
  intros H.
  apply (plus_loop_advances _ _ value_runes_app quoted_body_advances) in H.
  destruct H as (n & Hn & Hv & H).
  destruct (skipn n s) as [|q rest] eqn:Es; [discriminate |].
  destruct (N.eqb_spec q quote) as [->|_]; [| discriminate].
  exists n, rest. split; [lia |].
  assert (Hlen : List.length (skipn n s) = S (List.length rest)) by now rewrite Es.
  rewrite length_skipn in Hlen.
  split; [simpl; lia |]. split; [| split].
  - replace (n + 3) with (S (S (S n))) by lia.
    change (skipn (S (S (S n))) (equals :: quote :: s)) with (skipn (1 + n) s).
    rewrite <- skipn_skipn, Es. reflexivity.
  - exists (firstn n s). split; [rewrite length_firstn; lia |].
    split; [exact Hv |]. now rewrite <- Es, firstn_skipn.
  - unfold k_sep in *.
    replace (pos + n + 3) with (S (S (S pos) + n)) by lia.
    replace (pos + 2) with (S (S pos)) by lia. exact H.
Qed.

(** ** One pass of the loop *)

Lemma slice_nat (s : str) (i j : nat) :
  i <= j -> j <= List.length s ->
  slice s (Z.of_nat i) (Z.of_nat j) = Ret (firstn (j - i) (skipn i s)).
Proof.
  intros Hij Hj. unfold slice.
  replace ((0 <=? Z.of_nat i)%Z && (Z.of_nat i <=? Z.of_nat j)%Z
           && (Z.of_nat j <=? Z.of_nat (List.length s))%Z) with true.
  - now rewrite !Nat2Z.id.
  - symmetry. rewrite !andb_true_iff, !Z.leb_le. lia.
Qed.

Lemma slice_from_nat (s : str) (i : nat) :
  i <= List.length s -> slice_from s (Z.of_nat i) = Ret (skipn i s).
Proof.
  intros Hi. unfold slice_from. rewrite slice_nat by lia.
  rewrite firstn_all2; [reflexivity |]. rewrite length_skipn. lia.
Qed.

Lemma slice_0_nat (s : str) (j : nat) :
  j <= List.length s -> slice s 0 (Z.of_nat j) = Ret (firstn j s).
Proof.
  intros Hj. change 0%Z with (Z.of_nat 0). rewrite slice_nat by lia.
  now rewrite Nat.sub_0_r.
Qed.

(** The separator after group 1 that ends at [g]: the end of [s], or a
    comma; [e] is where the whole match ends. *)
Definition sep_after (s : str) (g e : nat) : Prop :=
  (skipn g s = [] /\ e = g) \/ (exists r, skipn g s = comma :: r /\ e = S g).

Lemma sep_after_le (s : str) (g e : nat) :
  sep_after s g e -> g <= List.length s -> g <= e <= List.length s.
Proof.
  intros [[_ ->] | (r & Hr & ->)] Hg; [lia |].
  assert (H : List.length (skipn g s) = S (List.length r)) by now rewrite Hr.
  rewrite length_skipn in H. lia.
Qed.

Lemma k_sep_success (pos : nat) (rest : str) (c res : caps) :
  k_sep pos rest c = Some res ->
  exists e,
    res = set_cap 0 0 e (set_cap 1 0 pos c)
    /\ ((rest = [] /\ e = pos) \/ (exists r, rest = comma :: r /\ e = S pos)).
Proof.
  rewrite k_sep_eval. destruct rest as [|y r].
  - intros H. injection H as <-. exists pos. split; [reflexivity | now left].
  - destruct (N.eqb_spec y comma) as [->|_]; [| discriminate].
    intros H. injection H as <-. exists (S pos).
    split; [reflexivity | right; now exists r].
Qed.

(** What a match of [optionRegexp] on [s] looks like: group 1 is
    [s[0:g]] and the match ends at [e], after the separator; either
    group 1 is the run of [[[:word:]-]] at the start of [s] and group 2
    is not set, or group 2 lies inside group 1. *)
Definition match_shape (s : str) (idx : list Z) (g e : nat) : Prop :=
  0 < g <= List.length s /\ sep_after s g e
  /\ ((idx = [0; Z.of_nat e; 0; Z.of_nat g; -1; -1]%Z
       /\ g = run_len word_or_dash s)
      \/ (exists a b,
            idx = [0; Z.of_nat e; 0; Z.of_nat g; Z.of_nat a; Z.of_nat b]%Z
            /\ a < b < g /\ a = run_len word_or_dash s + 2)).

Lemma find_shape (s : str) (idx : list Z) :
  FindStringSubmatchIndex optionRegexp s = Some idx ->
  exists g e, match_shape s idx g e.
Proof.
  unfold FindStringSubmatchIndex, optionRegexp.
  rewrite search_anchored. fold optionRegexp. rewrite match_at_option.
  pose proof (run_len_le word_or_dash s) as Hle.
  destruct (run_len word_or_dash s) as [|w] eqn:Hw; [discriminate |].
  destruct (k_sep (S w) (skipn (S w) s) init) as [res|] eqn:Hsep.
  - intros H. injection H as <-.
    apply k_sep_success in Hsep. destruct Hsep as (e & -> & Hsep).
    exists (S w), e. split; [lia |]. split.
    + destruct Hsep as [[H1 ->] | (r & H1 & ->)]; [now left |].
      right. now exists r.
    + left. split; [reflexivity | now symmetry].
  - intros H. apply k_val_success in H.
    destruct H as (n & rest & Hn & Hlen & Hrest & _ & H).
    rewrite length_skipn in Hlen. rewrite skipn_skipn in Hrest.
    apply k_sep_success in H. clear Hsep. destruct H as (e & -> & Hsep).
    exists (S w + n + 3), e. split; [lia |]. split.
    + unfold sep_after.
      replace (S w + n + 3) with (n + 3 + S w) by lia. rewrite Hrest.
      destruct Hsep as [[H1 ->] | (r & H1 & ->)].
      * left. split; [assumption | lia].
      * right. exists r. split; [assumption | lia].
    + right. exists (S w + 2), (S w + 2 + n). split; [reflexivity | lia].
Qed.

Lemma next_option_shape (s : str) (idx : list Z) (g e : nat) :
  FindStringSubmatchIndex optionRegexp s = Some idx ->
  match_shape s idx g e ->
  next_option s = Some (Ret (firstn g s, idx, skipn e s)).
Proof.
  intros Hf (Hg & Hsep & Hidx). unfold next_option. rewrite Hf.
  pose proof (sep_after_le s g e Hsep ltac:(lia)) as He.
  assert (E : idx = [0; Z.of_nat e; 0; Z.of_nat g; nth 4 idx 0; nth 5 idx 0]%Z)
    by (destruct Hidx as [[-> _] | (a & b & -> & _)]; reflexivity).
  rewrite E. cbn [index nth_error bind].
  rewrite slice_0_nat by lia. rewrite slice_from_nat by lia.
  reflexivity.
Qed.

(** One pass either finds no option or returns one; it does not panic,
    and the rest of the tag is shorter than the tag. *)
Lemma next_option_cases (s : str) :
  (FindStringSubmatchIndex optionRegexp s = None /\ next_option s = None)
  \/ (exists idx g e,
        FindStringSubmatchIndex optionRegexp s = Some idx
        /\ match_shape s idx g e
        /\ next_option s = Some (Ret (firstn g s, idx, skipn e s))).
Proof.
  destruct (FindStringSubmatchIndex optionRegexp s) as [idx|] eqn:Hf.
  - right. destruct (find_shape s idx Hf) as (g & e & Hs).
    exists idx, g, e. repeat split; try assumption; try apply Hs.
    now apply next_option_shape.
  - left. split; [reflexivity |]. unfold next_option. now rewrite Hf.
Qed.

(** ** Tokens *)

(** The tokens of the grammar, as text: a run of [[[:word:]-]] (a
    dash-flag or a bare word), or a key, [='], a value and a quote. *)
Inductive token : Type :=
| Word (w : str)
| Value (key value : str).

Definition text (t : token) : str :=
  match t with
  | Word w => w
  | Value key value => key ++ equals :: quote :: value ++ [quote]
  end.

(** A value read from the left as the regular expression reads it
    first: a backslash with the rune after it (unless that is a
    newline), or one rune that is not a quote.  [escaped] says that
    this reading takes the whole value: no quote stands alone, and no
    backslash is left to escape the closing quote. *)
Fixpoint escaped (v : str) : bool :=
  match v with
  | [] => true
  | y :: v' =>
      if N.eqb y backslash then
        match v' with
        | z :: v'' => if any_but_newline z then escaped v'' else escaped v'
        | [] => false
        end
      else not_quote y && escaped v'
  end.

Definition nonempty (s : str) : bool :=
  match s with [] => false | _ :: _ => true end.

Definition well_formed (t : token) : bool :=
  match t with
  | Word w => nonempty w && forallb word_or_dash w
  | Value key value =>
      nonempty key && forallb word_or_dash key
      && nonempty value && escaped value
  end.

(** The groups of the match of a token: group 1 is the token, group 2
    the value if there is one; [sep] is 1 when a comma follows. *)
Definition token_idx (t : token) (sep : nat) : list Z :=
  let g := List.length (text t) in
  match t with
  | Word _ => [0; Z.of_nat (g + sep); 0; Z.of_nat g; -1; -1]%Z
  | Value key value =>
      [0; Z.of_nat (g + sep); 0; Z.of_nat g;
       Z.of_nat (List.length key + 2);
       Z.of_nat (List.length key + 2 + List.length value)]%Z
  end.

Lemma quoted_body_cons (pos : nat) (y : rune) (s : str) (c : caps) (k : cont) :
  quoted_body pos (y :: s) c k =
  match
    (if N.eqb y backslash then
       match s with
       | z :: s' => if any_but_newline z then k (S (S pos)) s' c else None
       | [] => None
       end
     else None)
  with
  | Some res => Some res
  | None => if not_quote y then k (S pos) s c else None
  end.
Proof. reflexivity. Qed.

Lemma quoted_stops_at_quote (fuel pos : nat) (tail : str) (c : caps) (k : cont) :
  plus_loop quoted_body fuel pos (quote :: tail) c k = None.
Proof. destruct fuel; reflexivity. Qed.

(** On an escaped value the first reading of the loop ends at the
    closing quote; if the continuation succeeds there, that is the
    match. *)
Lemma quoted_greedy (n : nat) :
  forall (v : str), List.length v <= n -> v <> [] -> escaped v = true ->
  forall fuel pos tail c k res,
    List.length (v ++ quote :: tail) <= fuel ->
    k (pos + List.length v) (quote :: tail) c = Some res ->
    plus_loop quoted_body fuel pos (v ++ quote :: tail) c k = Some res.
Proof.
  induction n as [|n IH]; intros v Hn Hv He fuel pos tail c k res Hfuel Hk.
  - destruct v; [now elim Hv | simpl in Hn; lia].
  - assert (Hrest : forall u pos' fuel',
               List.length u <= n -> escaped u = true ->
               List.length (u ++ quote :: tail) <= fuel' ->
               k (pos' + List.length u) (quote :: tail) c = Some res ->
               match plus_loop quoted_body fuel' pos' (u ++ quote :: tail) c k with
               | Some r => Some r
               | None => k pos' (u ++ quote :: tail) c
               end = Some res).
    { intros u pos' fuel' Hu Heu Hf Hku. destruct u as [|x u].
      - cbn [app]. rewrite quoted_stops_at_quote.
        now rewrite Nat.add_0_r in Hku.
      - rewrite (IH (x :: u) Hu ltac:(discriminate) Heu fuel' pos' tail c k res Hf Hku).
        reflexivity. }
    destruct v as [|y v']; [now elim Hv |]. clear Hv.
    destruct fuel as [|fuel]; [simpl in Hfuel; lia |].
    cbn [app plus_loop]. rewrite quoted_body_cons.
    cbn [escaped] in He. cbn [List.length] in Hn, Hk.
    rewrite length_app in Hfuel. cbn [List.length app] in Hfuel.
    destruct (N.eqb y backslash) eqn:Hy.
    + destruct v' as [|z v'']; [discriminate He |].
      cbn [app]. destruct (any_but_newline z) eqn:Hz.
      * cbn [List.length] in Hn, Hk, Hfuel.
        rewrite (Hrest v'' (S (S pos)) fuel); try assumption; try lia.
        -- reflexivity.
        -- rewrite length_app. cbn [List.length]. lia.
        -- now replace (S (S pos) + List.length v'')
             with (pos + S (S (List.length v''))) by lia.
      * apply N.eqb_eq in Hy. subst y.
        change (not_quote backslash) with true. cbv iota.
        apply (Hrest (z :: v'') (S pos) fuel); try assumption; try lia.
        -- rewrite length_app. cbn [List.length] in *. lia.
        -- now replace (S pos + List.length (z :: v''))
             with (pos + S (List.length (z :: v''))) by lia.
    + apply andb_true_iff in He. destruct He as [Hq He]. rewrite Hq.
      apply (Hrest v' (S pos) fuel); try assumption; try lia.
      * rewrite length_app. cbn [List.length]. lia.
      * now replace (S pos + List.length v') with (pos + S (List.length v')) by lia.
Qed.

Lemma caps_word (g e : nat) :
  set_cap 0 0 e (set_cap 1 0 g init)
  = [0; Z.of_nat e; 0; Z.of_nat g; -1; -1]%Z.
Proof. reflexivity. Qed.

Lemma caps_value (g e a b : nat) :
  set_cap 0 0 e (set_cap 1 0 g (set_cap 2 a b init))
  = [0; Z.of_nat e; 0; Z.of_nat g; Z.of_nat a; Z.of_nat b]%Z.
Proof. reflexivity. Qed.

(** What may follow a token: the end of the tag, or a comma. *)
Definition follows (tail : str) (sep : nat) : Prop :=
  (tail = [] /\ sep = 0) \/ (exists r, tail = comma :: r /\ sep = 1).

Lemma k_sep_follows (pos : nat) (tail : str) (sep : nat) (c : caps) :
  follows tail sep ->
  k_sep pos tail c = Some (set_cap 0 0 (pos + sep) (set_cap 1 0 pos c)).
Proof.
  rewrite k_sep_eval. intros [[-> ->] | (r & -> & ->)].
  - now rewrite Nat.add_0_r.
  - rewrite N.eqb_refl. now rewrite Nat.add_1_r.
Qed.

Lemma nonempty_length (s : str) : nonempty s = true -> 0 < List.length s.
Proof. destruct s; [discriminate | simpl; lia]. Qed.

(** The match of a well-formed token followed by the end of the tag or
    by a comma is the token. *)
Lemma find_token (t : token) (tail : str) (sep : nat) :
  well_formed t = true -> follows tail sep ->
  FindStringSubmatchIndex optionRegexp (text t ++ tail) = Some (token_idx t sep).
Proof.
  intros Hwf Hfol. unfold FindStringSubmatchIndex, optionRegexp.
  rewrite search_anchored. fold optionRegexp. rewrite match_at_option.
  destruct t as [w | key v]; cbn [well_formed text token_idx] in *.
  - apply andb_true_iff in Hwf. destruct Hwf as [Hne Hw].
    apply nonempty_length in Hne.
    rewrite (run_len_app word_or_dash w tail Hw)
      by (destruct Hfol as [[-> _] | (r & -> & _)]; [exact I | reflexivity]).
    destruct (List.length w) as [|n] eqn:Hlen; [lia |].
    rewrite <- Hlen, skipn_app, skipn_all, Nat.sub_diag. cbn [skipn app].
    rewrite (k_sep_follows _ _ _ _ Hfol), caps_word. reflexivity.
  - apply andb_true_iff in Hwf. destruct Hwf as [Hwf Hesc].
    apply andb_true_iff in Hwf. destruct Hwf as [Hwf Hnv].
    apply andb_true_iff in Hwf. destruct Hwf as [Hnk Hk].
    apply nonempty_length in Hnk.
    rewrite <- app_assoc. cbn [app]. rewrite <- app_assoc. cbn [app].
    rewrite (run_len_app word_or_dash key _ Hk) by reflexivity.
    destruct (List.length key) as [|n] eqn:Hlen; [lia |].
    rewrite <- Hlen, skipn_app, skipn_all, Nat.sub_diag. cbn [skipn app].
    rewrite k_sep_eval. change (N.eqb equals comma) with false. cbv iota.
    unfold k_val. cbn [_QUOTED_STRING_REGEXP m].
    rewrite !N.eqb_refl.
    change (m (Alt (Seq (Chr backslash) (Cls any_but_newline)) (Cls not_quote)))
      with quoted_body.
    rewrite (quoted_greedy (List.length v) v (le_n _)
               ltac:(now destruct v) Hesc _ _ tail init _
               (set_cap 0 0 (List.length key + 2 + List.length v + 1 + sep)
                  (set_cap 1 0 (List.length key + 2 + List.length v + 1)
                     (set_cap 2 (List.length key + 2)
                        (List.length key + 2 + List.length v) init)))).
    + rewrite caps_value. rewrite !length_app. cbn [List.length].
      rewrite length_app. cbn [List.length].
      replace (List.length key + S (S (List.length v + 1)))
        with (List.length key + 2 + List.length v + 1) by lia.
      reflexivity.
    + lia.
    + cbn [m]. rewrite N.eqb_refl.
      replace (S (S (S (List.length key)) + List.length v))
        with (List.length key + 2 + List.length v + 1) by lia.
      replace (S (S (List.length key))) with (List.length key + 2) by lia.
      replace (List.length key + 2 + List.length v + 1 + sep)
        with ((List.length key + 2 + List.length v + 1) + sep) by lia.
      rewrite <- (k_sep_follows _ tail sep _ Hfol). unfold k_sep.
      repeat f_equal; lia.
Qed.

Lemma token_idx_shape (t : token) (sep : nat) :
  exists a b,
    token_idx t sep
    = [0; Z.of_nat (List.length (text t) + sep); 0;
       Z.of_nat (List.length (text t)); a; b]%Z.
Proof. destruct t; eexists _, _; reflexivity. Qed.

(** One pass on a tag that starts with a well-formed token: the option
    is the token, the rest of the tag is what follows the separator. *)
Lemma next_option_token (t : token) (tail : str) (sep : nat) :
  well_formed t = true -> follows tail sep ->
  next_option (text t ++ tail)
  = Some (Ret (text t, token_idx t sep, skipn sep tail)).
Proof.
  intros Hwf Hfol. unfold next_option. rewrite (find_token t tail sep Hwf Hfol).
  destruct (token_idx_shape t sep) as (a & b & E).
  assert (I1 : index (token_idx t sep) 1
               = Ret (Z.of_nat (List.length (text t) + sep)))
    by (rewrite E; reflexivity).
  assert (I2 : index (token_idx t sep) 2 = Ret 0%Z) by (rewrite E; reflexivity).
  assert (I3 : index (token_idx t sep) 3 = Ret (Z.of_nat (List.length (text t))))
    by (rewrite E; reflexivity).
  assert (Hsep : sep <= List.length tail)
    by (destruct Hfol as [[-> ->] | (r & -> & ->)]; simpl; lia).
  rewrite I2, I3, I1. cbn [bind].
  rewrite slice_0_nat by (rewrite length_app; lia). cbn [bind].
  rewrite slice_from_nat by (rewrite length_app; lia).
  cbn [bind]. rewrite firstn_app, Nat.sub_diag, firstn_all. cbn [firstn].
  rewrite app_nil_r, skipn_app, skipn_all2 by lia.
  replace (List.length (text t) + sep - List.length (text t)) with sep by lia.
  reflexivity.
Qed.

(** ** The grammar *)

(** A token of the grammar: a dash-flag or a bare word, that is a run
    of [[[:word:]-]] that is not empty; or a key, which is such a run,
    with a quoted value, which is not empty and made of escapes and of
    runes other than the quote. *)
Definition grammar_token (t : token) : Prop :=
  match t with
  | Word w => w <> [] /\ forallb word_or_dash w = true
  | Value key v =>
      key <> [] /\ forallb word_or_dash key = true
      /\ v <> [] /\ value_runes v
  end.

(** The tag starts with a token that is followed by a comma or ends
    the tag. *)
Definition starts_with_token (s : str) : Prop :=
  exists t tail sep, grammar_token t /\ follows tail sep /\ s = text t ++ tail.

Lemma k_sep_success_follows (pos : nat) (rest : str) (c res : caps) :
  k_sep pos rest c = Some res -> exists sep, follows rest sep.
Proof.
  intros H. apply k_sep_success in H.
  destruct H as (e & _ & [[-> _] | (r & -> & _)]).
  - exists 0. now left.
  - exists 1. right. now exists r.
Qed.

(** A match of [optionRegexp] starts with a token of the grammar. *)
Lemma find_some_token (s : str) (idx : list Z) :
  FindStringSubmatchIndex optionRegexp s = Some idx -> starts_with_token s.
Proof.
  unfold FindStringSubmatchIndex, optionRegexp.
  rewrite search_anchored. fold optionRegexp. rewrite match_at_option.
  pose proof (run_len_le word_or_dash s) as Hle.
  pose proof (run_len_firstn word_or_dash s) as Hrun.
  destruct (run_len word_or_dash s) as [|w] eqn:Hw; [discriminate |].
  assert (Hne : firstn (S w) s <> []).
  { intros E. apply (f_equal (@List.length rune)) in E.
    rewrite length_firstn in E. cbn [List.length] in E. lia. }
  destruct (k_sep (S w) (skipn (S w) s) init) as [res|] eqn:Hsep.
  - intros _. apply k_sep_success_follows in Hsep. destruct Hsep as [sep Hsep].
    exists (Word (firstn (S w) s)), (skipn (S w) s), sep.
    split; [now split |]. split; [exact Hsep |].
    cbn [text]. now rewrite firstn_skipn.
  - intros H. apply k_val_success in H.
    destruct H as (n & rest & Hn & _ & _ & (v & Hlen & Hv & Es) & H).
    apply k_sep_success_follows in H. destruct H as [sep Hfol].
    exists (Value (firstn (S w) s) v), rest, sep. split.
    + cbn [grammar_token]. repeat split; try assumption.
      intros ->. simpl in Hlen. lia.
    + split; [exact Hfol |]. cbn [text].
      rewrite <- !app_assoc. cbn [app]. rewrite <- app_assoc. cbn [app].
      rewrite <- Es. now rewrite firstn_skipn.
Qed.

(** The loop over a quoted value finds a match whenever the value can
    be read as escapes and runes and the continuation succeeds after
    it. *)
Lemma quoted_complete (k : cont) (tail : str) (c : caps) (r0 : caps) (v : str) :
  value_runes v ->
  forall fuel pos,
    v <> [] ->
    List.length (v ++ tail) <= fuel ->
    k (pos + List.length v) tail c = Some r0 ->
    exists res, plus_loop quoted_body fuel pos (v ++ tail) c k = Some res.
Proof.
  intros Hv.
  assert (Hrest : forall u,
             (forall fuel pos, u <> [] -> List.length (u ++ tail) <= fuel ->
                k (pos + List.length u) tail c = Some r0 ->
                exists res, plus_loop quoted_body fuel pos (u ++ tail) c k
                            = Some res) ->
             forall fuel pos,
               List.length (u ++ tail) <= fuel ->
               k (pos + List.length u) tail c = Some r0 ->
               exists res,
                 match plus_loop quoted_body fuel pos (u ++ tail) c k with
                 | Some r => Some r
                 | None => k pos (u ++ tail) c
                 end = Some res).
  { intros u IH fuel pos Hf Hk. destruct u as [|x u].
    - cbn [app List.length] in *. rewrite Nat.add_0_r in Hk.
      destruct (plus_loop quoted_body fuel pos tail c k) as [r|];
        [now exists r | now exists r0].
    - destruct (IH fuel pos ltac:(discriminate) Hf Hk) as [res ->].
      now exists res. }
  induction Hv as [| y v Hy Hv IH | z v Hz Hv IH]; intros fuel pos Hne Hf Hk.
  - now elim Hne.
  - destruct fuel as [|fuel]; [simpl in Hf; lia |].
    cbn [app plus_loop]. rewrite quoted_body_cons.
    match goal with
    | |- exists res, match ?a with _ => _ end = _ =>
        destruct a as [r|]; [now exists r |]
    end.
    rewrite Hy. cbn [List.length app] in Hf, Hk.
    apply (Hrest v IH); [lia |].
    now replace (S pos + List.length v) with (pos + S (List.length v)) by lia.
  - destruct fuel as [|fuel]; [simpl in Hf; lia |].
    cbn [app plus_loop]. rewrite quoted_body_cons, N.eqb_refl, Hz.
    cbn [List.length app] in Hf, Hk.
    destruct (Hrest v IH fuel (S (S pos))) as [res ->]; [lia | |].
    + now replace (S (S pos) + List.length v)
        with (pos + S (S (List.length v))) by lia.
    + now exists res.
Qed.

(** A tag that starts with a token of the grammar is matched. *)
Lemma find_grammar_token (t : token) (tail : str) (sep : nat) :
  grammar_token t -> follows tail sep ->
  exists idx, FindStringSubmatchIndex optionRegexp (text t ++ tail) = Some idx.
Proof.
  intros Hg Hfol. destruct t as [w | key v]; cbn [grammar_token] in Hg.
  - destruct Hg as [Hne Hw]. exists (token_idx (Word w) sep).
    apply find_token; [| exact Hfol]. cbn [well_formed]. rewrite Hw.
    now destruct w.
  - destruct Hg as (Hnk & Hk & Hnv & Hv).
    unfold FindStringSubmatchIndex, optionRegexp.
    rewrite search_anchored. fold optionRegexp. rewrite match_at_option.
    cbn [text]. rewrite <- app_assoc. cbn [app]. rewrite <- app_assoc. cbn [app].
    rewrite (run_len_app word_or_dash key _ Hk) by reflexivity.
    destruct (List.length key) as [|n] eqn:Hlen; [now destruct key |].
    rewrite <- Hlen, skipn_app, skipn_all, Nat.sub_diag. cbn [skipn app].
    rewrite k_sep_eval. change (N.eqb equals comma) with false. cbv iota.
    unfold k_val. cbn [_QUOTED_STRING_REGEXP m]. rewrite !N.eqb_refl.
    change (m (Alt (Seq (Chr backslash) (Cls any_but_newline)) (Cls not_quote)))
      with quoted_body.
    eapply quoted_complete; [exact Hv | exact Hnv | lia |].
    cbn [m]. rewrite N.eqb_refl. apply (k_sep_follows _ tail sep _ Hfol).
Qed.

(** [optionRegexp] matches a tag if and only if the tag starts with a
    token of the grammar followed by a comma or by the end. *)
Lemma find_none_iff (s : str) :
  FindStringSubmatchIndex optionRegexp s = None <-> ~ starts_with_token s.
Proof.
  split.
  - intros Hf (t & tail & sep & Hg & Hfol & ->).
    destruct (find_grammar_token t tail sep Hg Hfol) as [idx H]. congruence.
  - intros Hn. destruct (FindStringSubmatchIndex optionRegexp s) as [idx|] eqn:E;
      [| reflexivity].
    elim Hn. now apply (find_some_token s idx).
Qed.



(** ** The options and what they do to the descriptor *)

(** An option the loop knows: a dash-flag, one of the two keywords, or
    a description or mutex group. *)
Definition recognized (option : str) : bool :=
  HasPrefix option (runes "-")
  || HasPrefix option (runes "description=")
  || HasPrefix option (runes "mutexgroup=")
  || str_eqb option (runes "accumulate")
  || str_eqb option (runes "obligatory").

(** The text of group 2, cut out of the option. *)
Definition group2 (option : str) (idx : list Z) : str :=
  firstn (Z.to_nat (nth 5 idx 0%Z) - Z.to_nat (nth 4 idx 0%Z))
         (skipn (Z.to_nat (nth 4 idx 0%Z)) option).

(** The descriptor after a recognized option. *)
Definition set_option (f : flag) (oi : str * list Z) : flag :=
  let (option, idx) := oi in
  if HasPrefix option (runes "--") then
    {| Short := Short f; Long := Long f ++ [skipn 2 option];
       Description := Description f; MutexGroup := MutexGroup f;
       Accumulate := Accumulate f; Obligatory := Obligatory f |}
  else if HasPrefix option (runes "-") then
    {| Short := Short f ++ [skipn 1 option]; Long := Long f;
       Description := Description f; MutexGroup := MutexGroup f;
       Accumulate := Accumulate f; Obligatory := Obligatory f |}
  else if HasPrefix option (runes "description=") then
    {| Short := Short f; Long := Long f;
       Description := group2 option idx; MutexGroup := MutexGroup f;
       Accumulate := Accumulate f; Obligatory := Obligatory f |}
  else if HasPrefix option (runes "mutexgroup=") then
    {| Short := Short f; Long := Long f;
       Description := Description f; MutexGroup := group2 option idx;
       Accumulate := Accumulate f; Obligatory := Obligatory f |}
  else if str_eqb option (runes "accumulate") then
    {| Short := Short f; Long := Long f;
       Description := Description f; MutexGroup := MutexGroup f;
       Accumulate := true; Obligatory := Obligatory f |}
  else if str_eqb option (runes "obligatory") then
    {| Short := Short f; Long := Long f;
       Description := Description f; MutexGroup := MutexGroup f;
       Accumulate := Accumulate f; Obligatory := true |}
  else f.

Lemma HasPrefix_app (s p : str) :
  HasPrefix s p = true -> s = p ++ skipn (List.length p) s.
Proof.
  revert s. induction p as [|x p IH]; intros s H; [reflexivity |].
  destruct s as [|y s]; [discriminate |]. simpl in H.
  apply andb_true_iff in H. destruct H as [Hx Hp]. apply N.eqb_eq in Hx.
  subst y. simpl. f_equal. now apply IH.
Qed.

Lemma HasPrefix_length (s p : str) :
  HasPrefix s p = true -> List.length p <= List.length s.
Proof.
  intros H. apply HasPrefix_app in H. rewrite H, length_app. lia.
Qed.

Lemma HasPrefix_twice (s : str) :
  HasPrefix s (runes "--") = true -> HasPrefix s (runes "-") = true.
Proof.
  destruct s as [|y s]; [discriminate |]. simpl.
  destruct (N.eqb y 45); [reflexivity | discriminate].
Qed.

Lemma HasPrefix_not_word (s p : str) :
  forallb word_or_dash s = true -> forallb word_or_dash p = false ->
  HasPrefix s p = false.
Proof.
  intros Hs Hp. destruct (HasPrefix s p) eqn:E; [| reflexivity].
  apply HasPrefix_app in E. rewrite E, forallb_app in Hs.
  apply andb_true_iff in Hs. destruct Hs as [Hs _]. congruence.
Qed.

(** After a match, the body of the loop returns: the new descriptor for
    a recognized option, the unknown-option error for another. *)
Lemma apply_option_spec (f : flag) (s : str) (idx : list Z) (g e : nat) :
  match_shape s idx g e ->
  apply_option f (firstn g s) idx =
  Ret (if recognized (firstn g s)
       then inl (set_option f (firstn g s, idx))
       else inr (ErrUnknownOption (firstn g s))).
Proof.
  intros (Hg & _ & Hidx).
  assert (Hlen : List.length (firstn g s) = g) by (rewrite length_firstn; lia).
  set (o := firstn g s) in *.
  unfold apply_option, recognized, set_option.
  destruct (HasPrefix o (runes "--")) eqn:H2.
  - rewrite (HasPrefix_twice o H2). cbn [orb].
    apply HasPrefix_length in H2. change (List.length (runes "--")) with 2 in H2.
    change 2%Z with (Z.of_nat 2). rewrite slice_from_nat by lia. reflexivity.
  - destruct (HasPrefix o (runes "-")) eqn:H1; cbn [orb].
    + apply HasPrefix_length in H1. change (List.length (runes "-")) with 1 in H1.
      change 1%Z with (Z.of_nat 1). rewrite slice_from_nat by lia. reflexivity.
    + destruct Hidx as [[-> Hrun] | (a & b & -> & Hab & _)].
      * assert (Hw : forallb word_or_dash o = true)
          by (unfold o; rewrite Hrun; apply run_len_firstn).
        rewrite (HasPrefix_not_word o (runes "description=") Hw eq_refl).
        rewrite (HasPrefix_not_word o (runes "mutexgroup=") Hw eq_refl).
        cbn [orb]. destruct (str_eqb o (runes "accumulate")); [reflexivity |].
        destruct (str_eqb o (runes "obligatory")); reflexivity.
      * assert (Hs : slice o (Z.of_nat a) (Z.of_nat b)
                     = Ret (group2 o [0; Z.of_nat e; 0; Z.of_nat g;
                                      Z.of_nat a; Z.of_nat b]%Z)).
        { rewrite slice_nat by lia. unfold group2. cbn [nth].
          now rewrite !Nat2Z.id. }
        cbn [index nth_error bind]. rewrite Hs. cbn [bind].
        destruct (HasPrefix o (runes "description=")); [reflexivity |].
        destruct (HasPrefix o (runes "mutexgroup=")); [reflexivity |].
        cbn [orb]. destruct (str_eqb o (runes "accumulate")); [reflexivity |].
        destruct (str_eqb o (runes "obligatory")); reflexivity.
Qed.

(** ** The run of the loop, told by its tokens *)

(** How the loop ends: the tag is used up; the rest does not start
    with a token of the grammar; the leading token is not recognized. *)
Inductive ending : Type :=
| EndOk
| EndNoMatch (rest : str)
| EndUnknown (option : str).

(** [scan tag opts e]: from [tag], the loop takes the recognized options
    [opts] (each with the groups of its match) off the front, one per
    pass, and then ends as [e] says. *)
Inductive scan : str -> list (str * list Z) -> ending -> Prop :=
| scan_done tag :
    TrimSpace tag = [] -> scan tag [] EndOk
| scan_nomatch tag :
    TrimSpace tag <> [] ->
    ~ starts_with_token (TrimSpace tag) ->
    scan tag [] (EndNoMatch (TrimSpace tag))
| scan_unknown tag option idx rest :
    TrimSpace tag <> [] ->
    next_option (TrimSpace tag) = Some (Ret (option, idx, rest)) ->
    recognized option = false ->
    scan tag [] (EndUnknown option)
| scan_more tag option idx rest opts e :
    TrimSpace tag <> [] ->
    next_option (TrimSpace tag) = Some (Ret (option, idx, rest)) ->
    recognized option = true ->
    scan rest opts e ->
    scan tag ((option, idx) :: opts) e.

Definition outcome (f : flag) (opts : list (str * list Z)) (e : ending)
  : flag + tag_error :=
  match e with
  | EndOk => inl (fold_left set_option opts f)
  | EndNoMatch rest => inr (ErrNoFlagDef rest)
  | EndUnknown option => inr (ErrUnknownOption option)
  end.

Lemma TrimLeft_length (s : str) : List.length (TrimLeft s) <= List.length s.
Proof.
  induction s as [|c s IH]; simpl; [lia |]. destruct (isSpace c); simpl; lia.
Qed.

Lemma TrimRight_length (s : str) : List.length (TrimRight s) <= List.length s.
Proof.
  induction s as [|c s IH]; simpl; [lia |].
  destruct (TrimRight s); [destruct (isSpace c) |]; simpl in *; lia.
Qed.

Lemma TrimSpace_length (s : str) : List.length (TrimSpace s) <= List.length s.
Proof.
  unfold TrimSpace. pose proof (TrimRight_length (TrimLeft s)).
  pose proof (TrimLeft_length s). lia.
Qed.

Lemma next_option_none (s : str) :
  FindStringSubmatchIndex optionRegexp s = None -> next_option s = None.
Proof. intros H. unfold next_option. now rewrite H. Qed.

(** With more passes allowed than the tag has runes, the loop returns,
    and what it returns is told by the scan of the tag. *)
Lemma loop_scan (n : nat) :
  forall (tag : str) (f : flag),
    List.length tag < n ->
    exists opts e,
      scan tag opts e
      /\ parseTag_loop n f tag = Some (Ret (outcome f opts e)).
Proof.
  induction n as [|n IH]; intros tag f Hn; [lia |].
  cbn [parseTag_loop]. pose proof (TrimSpace_length tag) as Ht.
  destruct (TrimSpace tag) as [|y t] eqn:Etag.
  - exists [], EndOk. split; [now apply scan_done | reflexivity].
  - cbn [List.length Nat.eqb]. rewrite <- Etag in *.
    assert (Hne : TrimSpace tag <> []) by (rewrite Etag; discriminate).
    destruct (next_option_cases (TrimSpace tag))
      as [[Hf Hnone] | (idx & g & e & Hf & Hshape & Hnext)].
    + rewrite Hnone. exists [], (EndNoMatch (TrimSpace tag)).
      split; [| reflexivity].
      apply scan_nomatch; [exact Hne | now apply find_none_iff].
    + rewrite Hnext, (apply_option_spec f _ idx g e Hshape).
      destruct (recognized (firstn g (TrimSpace tag))) eqn:Hrec.
      * destruct Hshape as (Hg & Hsep & _).
        pose proof (sep_after_le _ g e Hsep ltac:(lia)) as He.
        destruct (IH (skipn e (TrimSpace tag))
                    (set_option f (firstn g (TrimSpace tag), idx)))
          as (opts & en & Hscan & Hloop).
        { rewrite length_skipn. lia. }
        exists ((firstn g (TrimSpace tag), idx) :: opts), en. split.
        -- eapply scan_more; eassumption.
        -- rewrite Hloop. now destruct en.
      * exists [], (EndUnknown (firstn g (TrimSpace tag))). split.
        -- eapply scan_unknown; eassumption.
        -- reflexivity.
Qed.

Lemma scan_deterministic (tag : str) (o1 o2 : list (str * list Z)) (e1 e2 : ending) :
  scan tag o1 e1 -> scan tag o2 e2 -> o1 = o2 /\ e1 = e2.
Proof.
  intros H1. revert o2 e2.
  induction H1 as [tag Ht | tag Ht Hf | tag o idx rest Ht Hn Hr
                   | tag o idx rest opts e Ht Hn Hr Hs IH];
    intros o2 e2 H2; inversion H2; subst; try congruence;
    try (now split);
    try (match goal with
         | H : ~ starts_with_token _ |- _ =>
             apply find_none_iff, next_option_none in H; congruence
         end).
  - match goal with
    | H : next_option _ = Some (Ret (option, _, _)) |- _ =>
        rewrite Hn in H; injection H as <- <- <-
    end.
    now split.
  - match goal with
    | H : next_option _ = Some (Ret (option, _, _)) |- _ =>
        rewrite Hn in H; injection H as <- <- <-
    end.
    match goal with
    | H : scan rest _ _ |- _ => destruct (IH _ _ H) as [-> ->]
    end.
    now split.
Qed.


Lemma parseTag_scan (tag : str) :
  exists opts e,
    scan tag opts e /\ parseTag tag = Some (Ret (outcome new_flag opts e)).
Proof. unfold parseTag. apply loop_scan. lia. Qed.

(** [parseTag] returns on every annotation: its loop ends within the
    passes it is given, and no slice of it is out of range. *)
Lemma parseTag_returns (tag : str) : exists r, parseTag tag = Some (Ret r).
Proof.
  destruct (parseTag_scan tag) as (opts & e & _ & H). eexists. exact H.
Qed.


(** ** White space *)

Definition all_space (w : str) : Prop := forallb isSpace w = true.

(** A text that neither starts nor ends with white space. *)
Definition tight (s : str) : Prop :=
  (exists y s', s = y :: s' /\ isSpace y = false)
  /\ (exists s' z, s = s' ++ [z] /\ isSpace z = false).

Lemma TrimLeft_space (w s : str) :
  all_space w -> TrimLeft (w ++ s) = TrimLeft s.
Proof.
  unfold all_space. induction w as [|c w IH]; simpl; [reflexivity |].
  intros H. apply andb_true_iff in H. destruct H as [-> H]. now apply IH.
Qed.

Lemma TrimRight_only_space (w : str) : all_space w -> TrimRight w = [].
Proof.
  unfold all_space. induction w as [|c w IH]; simpl; [reflexivity |].
  intros H. apply andb_true_iff in H. destruct H as [-> H]. now rewrite IH.
Qed.

Lemma TrimRight_space (s w : str) :
  all_space w -> TrimRight (s ++ w) = TrimRight s.
Proof.
  intros Hw. induction s as [|c s IH]; simpl.
  - now apply TrimRight_only_space.
  - now rewrite IH.
Qed.

Lemma TrimRight_tight (s : str) (z : rune) :
  isSpace z = false -> TrimRight (s ++ [z]) = s ++ [z].
Proof.
  intros Hz. induction s as [|c s IH]; simpl.
  - now rewrite Hz.
  - rewrite IH. destruct (s ++ [z]) eqn:E; [| reflexivity].
    symmetry in E. now apply app_cons_not_nil in E.
Qed.

Lemma TrimSpace_tight (lead s trail : str) :
  all_space lead -> all_space trail -> tight s ->
  TrimSpace (lead ++ s ++ trail) = s.
Proof.
  intros Hl Ht [(y & s' & Es & Hy) (s'' & z & Ee & Hz)].
  unfold TrimSpace. rewrite (TrimLeft_space _ _ Hl).
  rewrite Es at 1. cbn [app TrimLeft]. rewrite Hy.
  change (y :: s' ++ trail) with ((y :: s') ++ trail). rewrite <- Es.
  rewrite (TrimRight_space _ _ Ht). rewrite Ee. now apply TrimRight_tight.
Qed.

Lemma TrimSpace_tight_only (s : str) : tight s -> TrimSpace s = s.
Proof.
  intros H. rewrite <- (app_nil_r s) at 1.
  now apply (TrimSpace_tight [] s []).
Qed.

Lemma not_space_quote : isSpace quote = false.
Proof. reflexivity. Qed.

Lemma text_tight (t : token) : well_formed t = true -> tight (text t).
Proof.
  destruct t as [w | key v]; cbn [well_formed text]; intros H.
  - apply andb_true_iff in H. destruct H as [Hne Hw]. split.
    + destruct w as [|y w]; [discriminate |]. exists y, w. split; [reflexivity |].
      simpl in Hw. apply andb_true_iff in Hw. destruct Hw as [Hy _].
      now apply word_or_dash_not in Hy.
    + destruct (exists_last (l := w)) as (w' & z & ->); [now destruct w |].
      exists w', z. split; [reflexivity |].
      rewrite forallb_app in Hw. apply andb_true_iff in Hw.
      destruct Hw as [_ Hz]. simpl in Hz. rewrite andb_true_r in Hz.
      now apply word_or_dash_not in Hz.
  - apply andb_true_iff in H. destruct H as [H _].
    apply andb_true_iff in H. destruct H as [H _].
    apply andb_true_iff in H. destruct H as [Hne Hk]. split.
    + destruct key as [|y key]; [discriminate |].
      eexists y, _. split; [reflexivity |].
      simpl in Hk. apply andb_true_iff in Hk. destruct Hk as [Hy _].
      now apply word_or_dash_not in Hy.
    + exists (key ++ equals :: quote :: v), quote. split; [| reflexivity].
      rewrite <- app_assoc. reflexivity.
Qed.

(** ** Annotations laid out with white space *)

(** A first token and the tokens after it, each after a comma and the
    white space [w] given with it. *)
Fixpoint spaced (t : token) (more : list (str * token)) : str :=
  match more with
  | [] => text t
  | (w, t') :: more' => text t ++ comma :: w ++ spaced t' more'
  end.

(** The same tokens with no white space. *)
Definition plain (more : list (str * token)) : list (str * token) :=
  map (fun wt => ([], snd wt)) more.

(** The tokens are well formed and what stands between them is white
    space. *)
Definition laid_out (more : list (str * token)) : Prop :=
  Forall (fun wt => all_space (fst wt) /\ well_formed (snd wt) = true) more.

Lemma laid_out_plain (more : list (str * token)) :
  laid_out more -> laid_out (plain more).
Proof.
  unfold laid_out, plain. intros H. induction H as [|[w t] more [_ Ht] _ IH].
  - constructor.
  - constructor; [| exact IH]. split; [reflexivity | exact Ht].
Qed.

Lemma spaced_tight (more : list (str * token)) :
  forall t, well_formed t = true -> laid_out more -> tight (spaced t more).
Proof.
  induction more as [|[w t'] more IH]; intros t Ht Hm.
  - now apply text_tight.
  - inversion Hm as [|? ? [Hw Ht'] Hm']; subst. cbn [spaced].
    destruct (text_tight t Ht) as [(y & s' & Es & Hy) _].
    destruct (IH t' Ht' Hm') as [_ (s'' & z & Ee & Hz)]. split.
    + exists y, (s' ++ comma :: w ++ spaced t' more).
      split; [now rewrite Es | exact Hy].
    + exists (text t ++ comma :: w ++ s''), z. split; [| exact Hz].
      rewrite Ee. rewrite <- !app_assoc. cbn [app]. now rewrite <- app_assoc.
Qed.

Lemma spaced_length (t : token) (more : list (str * token)) :
  well_formed t = true -> 0 < List.length (spaced t more).
Proof.
  intros Ht. destruct (text_tight t Ht) as [(y & s' & Es & _) _].
  destruct more as [|[w t'] more]; cbn [spaced]; rewrite Es; simpl; lia.
Qed.

Lemma loop_nil (n : nat) (f : flag) :
  parseTag_loop (S n) f [] = Some (Ret (inl f)).
Proof. reflexivity. Qed.

(** The loop on a laid-out annotation goes as on the plain one. *)
Lemma loop_spaced (more : list (str * token)) :
  forall (t : token) (f : flag) (n1 n2 : nat) (lead trail : str),
    well_formed t = true -> laid_out more ->
    all_space lead -> all_space trail ->
    List.length (spaced t more) < n1 ->
    List.length (spaced t (plain more)) < n2 ->
    parseTag_loop n1 f (lead ++ spaced t more ++ trail)
    = parseTag_loop n2 f (spaced t (plain more)).
Proof.
  induction more as [|[w t'] more IH];
    intros t f n1 n2 lead trail Ht Hm Hl Htr Hn1 Hn2.
  - cbn [plain map spaced] in *.
    pose proof (spaced_length t [] Ht) as Hpos. cbn [spaced] in Hpos.
    destruct n1 as [|n1]; [lia |]. destruct n2 as [|n2]; [lia |].
    cbn [parseTag_loop].
    rewrite (TrimSpace_tight lead (text t) trail Hl Htr (text_tight t Ht)).
    rewrite (TrimSpace_tight_only (text t) (text_tight t Ht)).
    destruct (Nat.eqb_spec (List.length (text t)) 0) as [E|_]; [lia |].
    pose proof (next_option_token t [] 0 Ht ltac:(left; now split)) as Hnext.
    rewrite app_nil_r in Hnext. rewrite Hnext. cbn [skipn].
    destruct (apply_option f (text t) (token_idx t 0)) as [[f'|err]|];
      try reflexivity.
    destruct n1 as [|n1]; [lia |]. destruct n2 as [|n2]; [lia |].
    now rewrite !loop_nil.
  - inversion Hm as [|? ? [Hw Ht'] Hm']; subst. cbn [fst snd] in *.
    pose proof (spaced_tight ((w, t') :: more) t Ht Hm) as Htight1.
    pose proof (spaced_tight (plain ((w, t') :: more)) t Ht
                  (laid_out_plain _ Hm)) as Htight2.
    destruct n1 as [|n1]; [lia |]. destruct n2 as [|n2]; [lia |].
    cbn [parseTag_loop]. rewrite (TrimSpace_tight _ _ _ Hl Htr Htight1).
    rewrite (TrimSpace_tight_only _ Htight2).
    cbn [plain map spaced snd] in *. fold (plain more) in *.
    rewrite !length_app in Hn1, Hn2. cbn [List.length] in Hn1, Hn2.
    rewrite length_app in Hn1.
    destruct (Nat.eqb_spec (List.length (text t ++ comma :: w ++ spaced t' more)) 0)
      as [E|_]; [rewrite length_app in E; cbn [List.length] in E; lia |].
    destruct (Nat.eqb_spec
                (List.length (text t ++ comma :: [] ++ spaced t' (plain more))) 0)
      as [E|_]; [rewrite length_app in E; cbn [List.length] in E; lia |].
    rewrite !(next_option_token t _ 1 Ht) by (right; eexists; now split).
    cbn [skipn].
    destruct (apply_option f (text t) (token_idx t 1)) as [[f'|err]|];
      try reflexivity.
    rewrite <- (app_nil_r (spaced t' more)).
    apply IH; try assumption; try reflexivity; cbn [app] in *; lia.
Qed.

(** An annotation: white space and a token, then the tokens after it,
    each after a comma and its white space. *)
Definition annotation (l : list (str * token)) : str :=
  match l with
  | [] => []
  | (w, t) :: more => w ++ spaced t more
  end.

Lemma TrimSpace_only_space (w : str) : all_space w -> TrimSpace w = [].
Proof.
  intros H. unfold TrimSpace. rewrite <- (app_nil_r w).
  now rewrite (TrimLeft_space w [] H).
Qed.

(** C7, as the code has it.  White space before a token (at the start of
    the annotation and after a separating comma) and after the last
    token is ignored: an annotation of well-formed tokens laid out with
    such white space is parsed as the annotation without it. *)
Theorem parseTag_ignores_space (l : list (str * token)) (trail : str) :
  laid_out l -> all_space trail ->
  parseTag (annotation l ++ trail) = parseTag (annotation (plain l)).
Proof.
  intros Hl Htr. unfold parseTag. destruct l as [|[w t] more].
  - cbn [annotation plain map app parseTag_loop].
    now rewrite (TrimSpace_only_space trail Htr).
  - inversion Hl as [|? ? [Hw Ht] Hm]; subst. cbn [fst snd] in *.
    cbn [annotation plain map snd]. fold (plain more).
    rewrite <- app_assoc. cbn [app].
    apply loop_spaced; try assumption; [| lia].
    rewrite !length_app. lia.
Qed.

(** ** The names, in the order of the annotation *)

Definition short_name (oi : str * list Z) : list str :=
  if HasPrefix (fst oi) (runes "--") then []
  else if HasPrefix (fst oi) (runes "-") then [skipn 1 (fst oi)]
  else [].

Definition long_name (oi : str * list Z) : list str :=
  if HasPrefix (fst oi) (runes "--") then [skipn 2 (fst oi)] else [].

(** The names of the dash-tokens among the options, in their order, a
    repeated one as often as it stands there. *)
Definition short_names (opts : list (str * list Z)) : list str :=
  flat_map short_name opts.

Definition long_names (opts : list (str * list Z)) : list str :=
  flat_map long_name opts.

Definition has_keyword (word : str) (opts : list (str * list Z)) : bool :=
  existsb (fun oi => str_eqb (fst oi) word) opts.

Lemma str_eqb_eq (a b : str) : str_eqb a b = true -> a = b.
Proof.
  revert b. induction a as [|x a IH]; intros [|y b] H; try discriminate;
    [reflexivity |].
  simpl in H. apply andb_true_iff in H. destruct H as [Hx Ha].
  apply N.eqb_eq in Hx. subst. f_equal. now apply IH.
Qed.

Lemma set_option_fields (f : flag) (oi : str * list Z) :
  Short (set_option f oi) = Short f ++ short_name oi
  /\ Long (set_option f oi) = Long f ++ long_name oi
  /\ Accumulate (set_option f oi)
     = Accumulate f || str_eqb (fst oi) (runes "accumulate")
  /\ Obligatory (set_option f oi)
     = Obligatory f || str_eqb (fst oi) (runes "obligatory").
Proof.
  destruct oi as [o idx]. unfold set_option, short_name, long_name. cbn [fst].
  destruct (str_eqb o (runes "accumulate")) eqn:Ea.
  - apply str_eqb_eq in Ea. subst o. cbn. rewrite !app_nil_r, !orb_true_r,
      !orb_false_r. now repeat split.
  - destruct (str_eqb o (runes "obligatory")) eqn:Eo.
    + apply str_eqb_eq in Eo. subst o. cbn. rewrite !app_nil_r, !orb_true_r,
        !orb_false_r. now repeat split.
    + rewrite !orb_false_r.
      destruct (HasPrefix o (runes "--")); cbn [Short Long Accumulate Obligatory];
        [rewrite ?app_nil_r; now repeat split |].
      destruct (HasPrefix o (runes "-")); cbn [Short Long Accumulate Obligatory];
        [rewrite ?app_nil_r; now repeat split |].
      destruct (HasPrefix o (runes "description="));
        cbn [Short Long Accumulate Obligatory];
        [rewrite ?app_nil_r; now repeat split |].
      destruct (HasPrefix o (runes "mutexgroup="));
        cbn [Short Long Accumulate Obligatory];
        rewrite ?app_nil_r; now repeat split.
Qed.

(** The loop invariant: the descriptor holds what the options taken so
    far gave it. *)
Lemma fold_set_option (opts : list (str * list Z)) :
  forall f,
    Short (fold_left set_option opts f) = Short f ++ short_names opts
    /\ Long (fold_left set_option opts f) = Long f ++ long_names opts
    /\ Accumulate (fold_left set_option opts f)
       = Accumulate f || has_keyword (runes "accumulate") opts
    /\ Obligatory (fold_left set_option opts f)
       = Obligatory f || has_keyword (runes "obligatory") opts.
Proof.
  induction opts as [|oi opts IH]; intros f.
  - cbn. now rewrite !app_nil_r, !orb_false_r.
  - cbn [fold_left]. destruct (IH (set_option f oi)) as (-> & -> & -> & ->).
    destruct (set_option_fields f oi) as (-> & -> & -> & ->).
    unfold short_names, long_names, has_keyword. cbn [flat_map existsb].
    now rewrite <- !app_assoc, <- !orb_assoc.
Qed.


(** ** The theorems at concrete annotations *)

Definition sp : rune := 32%N.

Lemma parseTag_ignores_space_witness :
  parseTag (runes "  -n, --name,   description='User name', obligatory ")
  = parseTag (runes "-n,--name,description='User name',obligatory").
Proof.
  assert (Hl : laid_out
                 [([sp; sp], Word (runes "-n"));
                  ([sp], Word (runes "--name"));
                  ([sp; sp; sp], Value (runes "description") (runes "User name"));
                  ([sp], Word (runes "obligatory"))])
    by (repeat constructor).
  assert (Htr : all_space [sp]) by reflexivity.
  exact (parseTag_ignores_space _ _ Hl Htr).
Defined.

(** The claim C7 as it is written does not hold for white space before
    a separating comma: the annotation is rejected there. *)
Lemma parseTag_space_before_comma :
  parseTag (runes "-n ,--name")
  = Some (Ret (inr (ErrNoFlagDef (runes "-n ,--name"))))
  /\ parseTag (runes "-n,--name")
     = Some (Ret (inl {| Short := [runes "n"]; Long := [runes "name"];
                         Description := []; MutexGroup := [];
                         Accumulate := false; Obligatory := false |}))
  /\ parseTag (runes "-n ,--name") <> parseTag (runes "-n,--name").
Proof.
  assert (H1 : parseTag (runes "-n ,--name")
               = Some (Ret (inr (ErrNoFlagDef (runes "-n ,--name")))))
    by (vm_compute; reflexivity).
  assert (H2 : parseTag (runes "-n,--name")
               = Some (Ret (inl {| Short := [runes "n"]; Long := [runes "name"];
                                   Description := []; MutexGroup := [];
                                   Accumulate := false; Obligatory := false |})))
    by (vm_compute; reflexivity).
  repeat split; try assumption. rewrite H1, H2. discriminate.
Qed.



End TagProps.

(** * Further properties of flag.go *)

Module FlagMore.
Import Go FlagGo FlagProps.

Section More.
Context {U : Type} (HelpKind : Kind) (intSize : Z).

(** ** Name and Handles *)

Lemma Name_long (f : Flag U) (c : ascii) (l : string) :
  Long f = String c l -> Name f = String "-" (String "-" (String c l)).
Proof. intros H. unfold Name. now rewrite H. Qed.

Lemma Name_short (f : Flag U) (c : ascii) (s : string) :
  Long f = "" -> Short f = String c s -> Name f = String "-" (String c s).
Proof. intros HL HS. unfold Name. now rewrite HL, HS. Qed.

Lemma Name_none (f : Flag U) :
  Long f = "" -> Short f = "" -> Name f = "<unspecified>".
Proof. intros HL HS. unfold Name. now rewrite HL, HS. Qed.

(** X1.  A flag handles the name it is shown under, [Name f], exactly
    when it has a long name or a short name of one byte; the call
    never panics.  A flag whose only name is a short name of several
    bytes is shown under a name it does not handle. *)
Theorem Handles_own_name (f : Flag U) :
  Handles f (Name f)
  = Ret ((0 <? len (Long f))%nat || (len (Short f) =? 1)%nat).
Proof.
  destruct (Long f) as [|c l] eqn:HL.
  - destruct (Short f) as [|c s] eqn:HS.
    + rewrite (Name_none f HL HS). apply Handles_plain; reflexivity.
    + rewrite (Name_short f c s HL HS). cbn [len String.length Nat.ltb Nat.leb orb].
      destruct (ascii_dec c "-") as [->|Hc].
      * rewrite Handles_long, HL. now destruct s.
      * rewrite (Handles_short f c s Hc), HS.
        destruct s as [|c' s]; cbn [String.length Nat.eqb].
        -- now rewrite String.eqb_refl.
        -- f_equal. apply String.eqb_neq. intros E. discriminate E.
  - rewrite (Name_long f c l HL), Handles_long, HL, String.eqb_refl.
    reflexivity.
Qed.

(** ** setValue *)

Lemma set_value_same (f : Flag U) : set_value f (value f) = f.
Proof. now destruct f. Qed.

(** What [setValue] leaves as it is: the names, the description, the
    groups, the two booleans, and the type of the field. *)
Definition same_descriptor (f f' : Flag U) : Prop :=
  Short f' = Short f /\ Long f' = Long f /\ MutexGroups f' = MutexGroups f
  /\ Description f' = Description f /\ Obligatory f' = Obligatory f
  /\ TypeOf (value f') = TypeOf (value f).

Lemma same_descriptor_refl (f : Flag U) : same_descriptor f f.
Proof. now repeat split. Qed.

Lemma same_descriptor_set_value (f : Flag U) (v : Value U) :
  TypeOf v = TypeOf (value f) -> same_descriptor f (set_value f v).
Proof. intros H. now repeat split. Qed.

Lemma setValue_frame (f f' : Flag U) (s : string) (err : option error) :
  setValue intSize f s = Ret (f', err) ->
  same_descriptor f f' /\ WasSpecified f' = WasSpecified f.
Proof.
  unfold setValue, marshaler_of.
  destruct (value f) as [b | s0 | n | u | t u] eqn:Hv; cbn.
  - intros H. injection H as <- _. split; [| reflexivity].
    apply same_descriptor_set_value. now rewrite Hv.
  - intros H. injection H as <- _. split; [| reflexivity].
    apply same_descriptor_set_value. now rewrite Hv.
  - unfold intValueParser. destruct (ParseInt s); intros H; injection H as <- _;
      (split; [| reflexivity]); apply same_descriptor_set_value; now rewrite Hv.
  - intros H. injection H as <- _. split; [| reflexivity].
    apply same_descriptor_set_value. now rewrite Hv.
  - destruct (t_marshaler t) as [m|].
    + destruct (MarshalGoption m _ s) as [u' e | [msg|]]; intros H;
        try discriminate H; injection H as <- _.
      * split; [| reflexivity]. apply same_descriptor_set_value. now rewrite Hv.
      * split; [apply same_descriptor_refl | reflexivity].
    + intros H. injection H as <- _.
      split; [apply same_descriptor_refl | reflexivity].
Qed.

(** X2.  When [setValue] returns an error, the field holds what it held
    before, unless the error is one that [MarshalGoption] returned: the
    converters of [parserMap], the unsupported-type case and a
    recovered panic write nothing. *)
Theorem setValue_error_keeps_field (f f' : Flag U) (s : string) (e : error) :
  setValue intSize f s = Ret (f', Some e) ->
  f' = f
  \/ exists t old m u msg,
       value f = OtherV t old /\ t_marshaler t = Some m
       /\ MarshalGoption m (if Kind_eqb (t_kind t) KPtr
                            then m_newptr m else m_zero m) s
          = MReturn u (Some msg)
       /\ e = ErrOther msg.
Proof.
  unfold setValue, marshaler_of.
  destruct (value f) as [b | s0 | n | u | t u] eqn:Hv; cbn.
  - discriminate.
  - discriminate.
  - unfold intValueParser. destruct (ParseInt s); [discriminate |].
    intros H. injection H as <- _. left. rewrite <- Hv. apply set_value_same.
  - intros H. injection H as <- _. left. rewrite <- Hv. apply set_value_same.
  - destruct (t_marshaler t) as [m|] eqn:Hm.
    + destruct (MarshalGoption m _ s) as [u' [msg|] | [msg|]] eqn:Hcall;
        try discriminate.
      * intros H. injection H as <- <-. right.
        exists t, u, m, u', msg. now repeat split.
      * intros H. injection H as <- _. now left.
    + intros H. injection H as <- _. now left.
Qed.

(** ** Parse *)

(** The first token is a cluster: short-style and longer than two
    bytes. *)
Definition is_cluster (param : string) : bool :=
  isShort param && (2 <? len param)%nat.

(** With a field that is no [Marshaler], [setValue] returns. *)
Lemma setValue_returns (f : Flag U) (s : string) :
  marshaler_of (value f) = None ->
  exists f' err, setValue intSize f s = Ret (f', err).
Proof.
  intros Hm. unfold setValue. rewrite Hm.
  destruct (parserMap intSize (TypeOf (value f))) as [parser|].
  - destruct (parser (value f) s) as [v err]. now eexists _, _.
  - now eexists _, _.
Qed.

(** The tokens [Parse] takes off the list once its tests are passed,
    and the raw value it hands to [setValue]. *)
Lemma consume_tokens (f : Flag U) (param : string) (rest : list string) :
  needs_argument_check f (param :: rest) param = false ->
  exists args' v,
    consume intSize f (param :: rest) param
    = ('(f', err) <- setValue intSize (set_WasSpecified f true) v ;;
       Ret (args', f', err))
    /\ ((is_cluster param = true /\ v = ""
         /\ exists tail, slice_from param 2 = Ret tail
                         /\ args' = ("-" ++ tail)%string :: rest)
        \/ (is_cluster param = false /\ NeedsExtraValue f = true
            /\ rest = v :: args')
        \/ (is_cluster param = false /\ NeedsExtraValue f = false
            /\ v = "" /\ args' = rest)).
Proof.
  intros Hc. unfold consume, needs_argument_check in *. fold (is_cluster param) in *.
  destruct (is_cluster param) eqn:Ecl.
  - unfold is_cluster in Ecl. apply andb_true_iff in Ecl. destruct Ecl as [_ El].
    apply Nat.ltb_lt in El. unfold slice_from, slice.
    replace (2 <=? len param)%nat with true by (symmetry; apply Nat.leb_le; lia).
    rewrite Nat.leb_refl. cbn [andb bind set_index].
    eexists _, "". split; [reflexivity |]. left.
    repeat split. eexists. split; reflexivity.
  - rewrite orb_false_r in Hc. destruct (NeedsExtraValue f) eqn:Hn; cbn [andb] in Hc.
    + destruct rest as [|v rest']; [discriminate Hc |].
      exists rest', v. split; [reflexivity |]. right. left. now repeat split.
    + exists rest, "". split; [reflexivity |]. right. right. now repeat split.
Qed.

(** X3.  With a field that is no [Marshaler], [Parse] panics on the
    empty argument list (it reads [args[0]]) and on no other. *)
Theorem Parse_panics_iff_empty (f : Flag U) (args : list string) :
  marshaler_of (value f) = None ->
  (Parse HelpKind intSize f args = Panic <-> args = []).
Proof.
  intros Hm. split.
  - destruct args as [|param rest]; [reflexivity |].
    rewrite Parse_cons.
    destruct (needs_argument_check f (param :: rest) param) eqn:Hc; [discriminate |].
    destruct (WasSpecified f && negb (IsMulti HelpKind f)); [discriminate |].
    destruct (consume_tokens f param rest Hc) as (args' & v & -> & _).
    destruct (setValue_returns (set_WasSpecified f true) v) as (f' & err & ->);
      [exact Hm | discriminate].
  - intros ->. reflexivity.
Qed.

(** X4.  Whatever [Parse] returns, it leaves the names, the
    description, the mutex groups and the obligatory mark of the flag
    and the type of its field as they were, and it never takes the
    specified mark back. *)
Theorem Parse_keeps_descriptor (f f' : Flag U) (args args' : list string)
    (err : option error) :
  Parse HelpKind intSize f args = Ret (args', f', err) ->
  same_descriptor f f' /\ (WasSpecified f = true -> WasSpecified f' = true).
Proof.
  destruct args as [|param rest]; [discriminate |]. rewrite Parse_cons.
  destruct (needs_argument_check f (param :: rest) param) eqn:Hc.
  { intros H. injection H as _ <- _. split; [apply same_descriptor_refl | tauto]. }
  destruct (WasSpecified f && negb (IsMulti HelpKind f)).
  { intros H. injection H as _ <- _. split; [apply same_descriptor_refl | tauto]. }
  destruct (consume_tokens f param rest Hc) as (a & v & -> & _).
  destruct (setValue intSize (set_WasSpecified f true) v) as [[g e]|] eqn:Es;
    cbn [bind]; [| discriminate].
  intros H. injection H as _ <- _.
  apply setValue_frame in Es. destruct Es as [Hsame Hw]. split.
  - exact Hsame.
  - intros _. rewrite Hw. reflexivity.
Qed.

Lemma Parse_passed (f : Flag U) (param : string) (rest : list string) :
  needs_argument_check f (param :: rest) param = false ->
  WasSpecified f = false ->
  Parse HelpKind intSize f (param :: rest) = consume intSize f (param :: rest) param.
Proof. intros Hc Hw. now rewrite Parse_cons, Hc, Hw. Qed.

Lemma value_check (f : Flag U) (param v : string) (rest : list string) :
  is_cluster param = false ->
  needs_argument_check f (param :: v :: rest) param = false.
Proof.
  intros Hcl. unfold needs_argument_check. fold (is_cluster param).
  rewrite Hcl. cbn. apply andb_false_r.
Qed.

Lemma consume_value (f : Flag U) (param v : string) (rest : list string) :
  is_cluster param = false -> NeedsExtraValue f = true ->
  consume intSize f (param :: v :: rest) param
  = ('(f', err) <- setValue intSize (set_WasSpecified f true) v ;;
     Ret (rest, f', err)).
Proof.
  intros Hcl Hn. unfold consume. fold (is_cluster param). now rewrite Hcl, Hn.
Qed.

(** A flag that takes a value, not yet specified, on a first token that
    is no cluster: the next token goes to [setValue], and the arguments
    after it are returned. *)
Lemma Parse_value (f : Flag U) (param v : string) (rest : list string) :
  NeedsExtraValue f = true -> WasSpecified f = false -> is_cluster param = false ->
  Parse HelpKind intSize f (param :: v :: rest)
  = ('(f', err) <- setValue intSize (set_WasSpecified f true) v ;;
     Ret (rest, f', err)).
Proof.
  intros Hn Hw Hcl.
  rewrite (Parse_passed f param (v :: rest) (value_check f param v rest Hcl) Hw).
  now apply consume_value.
Qed.

(** X5.  A flag bound to a [string] field, not yet specified, on a
    first token that is no cluster: [Parse] takes the next token as the
    value, whatever it looks like (another flag's name included),
    stores it unchanged and returns the arguments after it. *)
Theorem Parse_string_takes_next (f : Flag U) (old param v : string)
    (rest : list string) :
  value f = StringV old -> WasSpecified f = false -> is_cluster param = false ->
  Parse HelpKind intSize f (param :: v :: rest)
  = Ret (rest, set_value (set_WasSpecified f true) (StringV v), None).
Proof.
  intros Hv Hw Hcl.
  rewrite Parse_value; [| unfold NeedsExtraValue; now rewrite Hv | exact Hw | exact Hcl].
  unfold setValue, marshaler_of. cbn [value set_WasSpecified]. rewrite Hv.
  reflexivity.
Qed.

(** X6.  A failed conversion is not undone.  For a flag bound to an
    [int] field, a value that is no decimal literal of the 64-bit range
    gives the conversion error, the field keeps its number, but both
    tokens are consumed and the flag is marked as specified: a second
    call, with any value, is rejected as a repetition. *)
Theorem Parse_conversion_error_marks (f : Flag U) (n : Z) (param bad : string)
    (rest : list string) :
  value f = IntV n -> WasSpecified f = false -> is_cluster param = false ->
  ~ (is_decimal bad = true /\ in_int64 (decimal_value bad)) ->
  exists e,
    Parse HelpKind intSize f (param :: bad :: rest)
    = Ret (rest, set_WasSpecified f true, Some (ErrNum bad e))
    /\ value (set_WasSpecified f true) = IntV n
    /\ forall good rest',
         Parse HelpKind intSize (set_WasSpecified f true) (param :: good :: rest')
         = Ret (param :: good :: rest', set_WasSpecified f true,
                Some (ErrOnlyOnce (Name f))).
Proof.
  intros Hv Hw Hcl Hbad.
  destruct (proj2 (ParseInt_spec bad) Hbad) as [e He]. exists e. split; [| split].
  - rewrite (Parse_passed f param (bad :: rest) (value_check f param bad rest Hcl) Hw).
    rewrite consume_value; [| exact Hcl | unfold NeedsExtraValue; now rewrite Hv].
    unfold setValue, marshaler_of. cbn [value set_WasSpecified]. rewrite Hv.
    cbn [TypeOf parserMap]. unfold intValueParser. rewrite He. cbn [bind].
    rewrite <- Hv. now rewrite <- (set_value_same (set_WasSpecified f true)) at 2.
  - exact Hv.
  - intros good rest'. rewrite Parse_cons, value_check by exact Hcl.
    unfold IsMulti. cbn [WasSpecified set_WasSpecified value]. rewrite Hv.
    reflexivity.
Qed.

(** X7.  A flag bound to the [Help] field asks for help on every
    argument list that is not empty: [Parse] returns [ErrHelpRequest],
    marks the flag and writes nothing to the field. *)
Theorem Parse_help_requests (f : Flag U) (u : U) (param : string)
    (rest : list string) :
  value f = HelpV u -> WasSpecified f = false ->
  exists args',
    Parse HelpKind intSize f (param :: rest)
    = Ret (args', set_WasSpecified f true, Some ErrHelpRequest)
    /\ List.length args' <= List.length (param :: rest).
Proof.
  intros Hv Hw.
  assert (Hn : NeedsExtraValue f = false)
    by (unfold NeedsExtraValue; now rewrite Hv).
  assert (Hc : needs_argument_check f (param :: rest) param = false)
    by (unfold needs_argument_check; now rewrite Hn).
  rewrite (Parse_passed f param rest Hc Hw).
  destruct (consume_tokens f param rest Hc) as (args' & v & -> & Hcase).
  exists args'. split.
  - unfold setValue, marshaler_of. cbn [value set_WasSpecified]. rewrite Hv.
    cbn [TypeOf parserMap helpValueParser bind]. rewrite <- Hv.
    now rewrite <- (set_value_same (set_WasSpecified f true)) at 2.
  - destruct Hcase as [(_ & _ & tail & _ & ->) | [(_ & Hn' & _) | (_ & _ & _ & ->)]].
    + simpl. lia.
    + congruence.
    + simpl. lia.
Qed.

(** X8.  A flag bound to a [bool] field can only fail by repetition:
    either [Parse] sets the field to true and marks the flag, or the
    flag was specified before and everything is returned as it was.
    It never sets the field to false. *)
Theorem Parse_bool_sets_true (f f' : Flag U) (b : bool)
    (args args' : list string) (err : option error) :
  value f = BoolV b ->
  Parse HelpKind intSize f args = Ret (args', f', err) ->
  (err = None /\ value f' = BoolV true /\ WasSpecified f' = true)
  \/ (err = Some (ErrOnlyOnce (Name f)) /\ f' = f /\ args' = args
      /\ WasSpecified f = true).
Proof.
  intros Hv. destruct args as [|param rest]; [discriminate |].
  assert (Hn : NeedsExtraValue f = false)
    by (unfold NeedsExtraValue; now rewrite Hv).
  assert (Hc : needs_argument_check f (param :: rest) param = false)
    by (unfold needs_argument_check; now rewrite Hn).
  rewrite Parse_cons, Hc. unfold IsMulti. rewrite Hv. cbn [KindOf Kind_eqb negb].
  rewrite andb_true_r. destruct (WasSpecified f) eqn:Hw.
  - intros H. injection H as <- <- <-. right. now repeat split.
  - destruct (consume_tokens f param rest Hc) as (a & v & -> & _).
    unfold setValue, marshaler_of. cbn [value set_WasSpecified]. rewrite Hv.
    cbn. intros H. injection H as _ <- <-. left. now repeat split.
Qed.

(** ** The width of int *)

Lemma to_int_spec (bits x : Z) :
  (0 < bits)%Z ->
  (- 2 ^ (bits - 1) <= to_int bits x < 2 ^ (bits - 1))%Z
  /\ ((to_int bits x - x) mod 2 ^ bits = 0)%Z
  /\ (to_int bits x = x <-> - 2 ^ (bits - 1) <= x < 2 ^ (bits - 1))%Z.
Proof.
  intros Hb. unfold to_int.
  assert (Hh : (0 < 2 ^ (bits - 1))%Z) by (apply Z.pow_pos_nonneg; lia).
  assert (HM : (2 ^ bits = 2 * 2 ^ (bits - 1))%Z).
  { replace bits with (Z.succ (bits - 1)) at 1 by lia.
    apply Z.pow_succ_r. lia. }
  rewrite HM. set (h := (2 ^ (bits - 1))%Z) in *.
  pose proof (Z.mod_pos_bound (x + h) (2 * h) ltac:(lia)) as Hm.
  split; [lia |]. split.
  - rewrite (Z.mod_eq (x + h) (2 * h)) by lia.
    replace (x + h - 2 * h * ((x + h) / (2 * h)) - h - x)%Z
      with (- ((x + h) / (2 * h)) * (2 * h))%Z by ring.
    apply Z.mod_mul. lia.
  - split.
    + intros E. lia.
    + intros Hx. rewrite Z.mod_small by lia. lia.
Qed.

(** X9.  The integer converter accepts every decimal literal of the
    64-bit range, whatever the width of [int]: the field gets the value
    wrapped to that width, which is the value itself exactly when it
    fits, and no error is returned when it does not. *)
Theorem intValueParser_wraps (v : Value U) (s : string) :
  (0 < intSize)%Z ->
  is_decimal s = true -> in_int64 (decimal_value s) ->
  exists x,
    intValueParser intSize v s = (IntV x, None)
    /\ (- 2 ^ (intSize - 1) <= x < 2 ^ (intSize - 1))%Z
    /\ ((x - decimal_value s) mod 2 ^ intSize = 0)%Z
    /\ (x = decimal_value s
        <-> - 2 ^ (intSize - 1) <= decimal_value s < 2 ^ (intSize - 1))%Z.
Proof.
  intros Hb Hd Hr. exists (to_int intSize (decimal_value s)). split.
  - unfold intValueParser.
    now rewrite (proj1 (ParseInt_spec s) (conj Hd Hr)).
  - apply to_int_spec. exact Hb.
Qed.

(** ** Clusters *)

(** [Parse] by each flag of a list in turn, each on the arguments the
    one before it returned, up to the first error: the calls made for
    a cluster when each of the flags handles the token it finds. *)
Fixpoint Parse_each (fs : list (Flag U)) (args : list string)
  : Result (list string * list (Flag U) * option error) :=
  match fs with
  | [] => Ret (args, [], None)
  | f :: fs' =>
      '(args', f', err) <- Parse HelpKind intSize f args ;;
      match err with
      | Some e => Ret (args', f' :: fs', Some e)
      | None =>
          '(args'', fs'', err') <- Parse_each fs' args' ;;
          Ret (args'', f' :: fs'', err')
      end
  end.

(** The token ["-" c1 ... cn tail]. *)
Definition cluster (cs : list ascii) (tail : string) : string :=
  String "-" (fold_right String tail cs).

(** A [bool] flag named [c], and the same after a successful [Parse]. *)
Definition switch (c : ascii) : Flag U := bool_flag (String c "").

Definition switched (c : ascii) : Flag U :=
  set_value (set_WasSpecified (switch c) true) (BoolV true).

Lemma Parse_switch_cluster (c d : ascii) (tail : string) (rest : list string) :
  c <> "-"%char ->
  Parse HelpKind intSize (switch c) (String "-" (String c (String d tail)) :: rest)
  = Ret (String "-" (String d tail) :: rest, switched c, None).
Proof.
  intros Hc. rewrite Parse_cons. unfold needs_argument_check, consume.
  destruct (isShort_short c (String d tail) Hc) as [-> _].
  cbn [switch bool_flag NeedsExtraValue value TypeOf andb WasSpecified].
  replace (2 <? len (String "-" (String c (String d tail))))%nat with true
    by (symmetry; apply Nat.ltb_lt; simpl; lia).
  cbn [andb]. rewrite slice_from_2. reflexivity.
Qed.

Lemma Parse_switch_last (c : ascii) (rest : list string) :
  Parse HelpKind intSize (switch c) (String "-" (String c "") :: rest)
  = Ret (rest, switched c, None).
Proof.
  rewrite Parse_cons. unfold needs_argument_check, consume.
  cbn [switch bool_flag NeedsExtraValue value TypeOf andb WasSpecified].
  replace (2 <? len (String "-" (String c "")))%nat with false by reflexivity.
  rewrite andb_false_r. reflexivity.
Qed.

(** The switches of a cluster are taken off one by one; the flags
    after them go on with what is left of the token. *)
Lemma Parse_each_peel (cs : list ascii) :
  forall (d : ascii) (tail : string) (fs : list (Flag U)) (rest : list string),
    Forall (fun c => c <> "-"%char) cs ->
    Parse_each (map switch cs ++ fs) (cluster cs (String d tail) :: rest)
    = ('(args, fs', err) <- Parse_each fs (cluster [] (String d tail) :: rest) ;;
       Ret (args, map switched cs ++ fs', err)).
Proof.
  induction cs as [|c cs IH]; intros d tail fs rest Hcs.
  - cbn [map app]. destruct (Parse_each fs _) as [[[a g] e]|]; reflexivity.
  - inversion Hcs as [|? ? Hc Hcs']; subst. cbn [map app Parse_each].
    assert (E : exists d' tail', fold_right String (String d tail) cs
                                 = String d' tail')
      by (destruct cs; cbn; eauto).
    destruct E as (d' & tail' & E). unfold cluster at 1. cbn [fold_right].
    rewrite E, (Parse_switch_cluster c d' tail' rest Hc). cbn [bind].
    rewrite <- E. fold (cluster cs (String d tail)). rewrite (IH d tail fs rest Hcs').
    destruct (Parse_each fs _) as [[[a g] e]|]; reflexivity.
Qed.

(** X10.  A cluster of switches [-c1...cn], handed to [bool] flags
    named c1, ..., cn in turn, sets every one of them and is used up:
    the arguments after it are returned untouched, and each flag
    handles the token it is handed. *)
Theorem Parse_each_switches (cs : list ascii) (c : ascii) (rest : list string) :
  Forall (fun x => x <> "-"%char) (cs ++ [c]) ->
  Parse_each (map switch (cs ++ [c])) (cluster (cs ++ [c]) "" :: rest)
  = Ret (rest, map switched (cs ++ [c]), None)
  /\ forall pre x post,
       cs ++ [c] = pre ++ x :: post ->
       Handles (switch x) (cluster (x :: post) "") = Ret true.
Proof.
  intros Hcs. split.
  - apply Forall_app in Hcs. destruct Hcs as [Hcs _].
    rewrite !map_app. cbn [map].
    replace (cluster (cs ++ [c]) "") with (cluster cs (String c ""))
      by (unfold cluster; now rewrite fold_right_app).
    rewrite (Parse_each_peel cs c "" [switch c] rest Hcs).
    cbn [Parse_each cluster fold_right]. rewrite Parse_switch_last. reflexivity.
  - intros pre x post E. rewrite E in Hcs. apply Forall_app in Hcs.
    destruct Hcs as [_ Hx]. inversion Hx as [|? ? Hx' _]; subst.
    unfold cluster. cbn [fold_right].
    rewrite (Handles_short (switch x) x _ Hx').
    cbn [switch bool_flag Short]. now rewrite String.eqb_refl.
Qed.

(** X11.  A flag that takes a value may end a cluster: after the
    switches [c1...cn] of [-c1...cnd], the flag named d, bound to a
    [string] field, gets the next argument as its value. *)
Theorem Parse_each_value_last (cs : list ascii) (d : ascii) (f : Flag U)
    (old v : string) (rest : list string) :
  Forall (fun x => x <> "-"%char) cs ->
  value f = StringV old -> WasSpecified f = false ->
  Parse_each (map switch cs ++ [f]) (cluster cs (String d "") :: v :: rest)
  = Ret (rest,
         map switched cs ++ [set_value (set_WasSpecified f true) (StringV v)],
         None).
Proof.
  intros Hcs Hv Hw. rewrite (Parse_each_peel cs d "" [f] (v :: rest) Hcs).
  cbn [Parse_each cluster fold_right].
  rewrite (Parse_value f _ v rest);
    [| unfold NeedsExtraValue; now rewrite Hv | exact Hw
     | unfold is_cluster; apply andb_false_r].
  unfold setValue, marshaler_of. cbn [value set_WasSpecified]. rewrite Hv.
  reflexivity.
Qed.

End More.

(** ** The properties at concrete flags *)

Definition count_flag : Flag unit :=
  {| Short := "c"; Long := "count"; MutexGroups := []; Description := "";
     Obligatory := false; WasSpecified := false; value := IntV 0 |}.

Definition help_flag : Flag unit :=
  {| Short := "h"; Long := "help"; MutexGroups := []; Description := "";
     Obligatory := false; WasSpecified := false; value := HelpV tt |}.

Lemma setValue_error_keeps_field_witness :
  setValue 64 count_flag "many" = Ret (count_flag, Some (ErrNum "many" ErrSyntax))
  /\ (count_flag = count_flag
      \/ exists t old m u msg,
           value count_flag = OtherV t old /\ t_marshaler t = Some m
           /\ MarshalGoption m (if Kind_eqb (t_kind t) KPtr
                                then m_newptr m else m_zero m) "many"
              = MReturn u (Some msg)
           /\ ErrNum "many" ErrSyntax = ErrOther msg).
Proof.
  assert (H : setValue 64 count_flag "many"
              = Ret (count_flag, Some (ErrNum "many" ErrSyntax)))
    by reflexivity.
  split; [exact H |].
  exact (setValue_error_keeps_field 64 count_flag count_flag "many" _ H).
Defined.

Lemma Parse_panics_iff_empty_witness :
  marshaler_of (value name_flag) = None
  /\ (Parse KBool 64 name_flag [] = Panic <-> @nil string = []).
Proof.
  split; [reflexivity |].
  exact (Parse_panics_iff_empty KBool 64 name_flag [] eq_refl).
Defined.

Lemma Parse_keeps_descriptor_witness :
  Parse KBool 64 name_flag ["--name"; "Ada"]
  = Ret ([], set_value (set_WasSpecified name_flag true) (StringV "Ada"), None)
  /\ same_descriptor name_flag
       (set_value (set_WasSpecified name_flag true) (StringV "Ada")).
Proof.
  assert (H : Parse KBool 64 name_flag ["--name"; "Ada"]
              = Ret ([], set_value (set_WasSpecified name_flag true)
                           (StringV "Ada"), None))
    by reflexivity.
  split; [exact H |].
  exact (proj1 (Parse_keeps_descriptor KBool 64 name_flag _ _ _ _ H)).
Defined.

Lemma Parse_string_takes_next_witness :
  value name_flag = StringV "" /\ WasSpecified name_flag = false
  /\ is_cluster "--name" = false
  /\ Parse KBool 64 name_flag ["--name"; "--force"; "x"]
     = Ret (["x"], set_value (set_WasSpecified name_flag true) (StringV "--force"),
            None).
Proof.
  split; [reflexivity |]. split; [reflexivity |]. split; [reflexivity |].
  exact (Parse_string_takes_next KBool 64 name_flag "" "--name" "--force" ["x"]
           eq_refl eq_refl eq_refl).
Defined.

Lemma Parse_conversion_error_marks_witness :
  exists e,
    Parse KBool 64 count_flag ["-c"; "many"; "x"]
    = Ret (["x"], set_WasSpecified count_flag true, Some (ErrNum "many" e))
    /\ value (set_WasSpecified count_flag true) = IntV 0
    /\ forall good rest',
         Parse KBool 64 (set_WasSpecified count_flag true) ("-c" :: good :: rest')
         = Ret ("-c" :: good :: rest', set_WasSpecified count_flag true,
                Some (ErrOnlyOnce (Name count_flag))).
Proof.
  apply (Parse_conversion_error_marks KBool 64 count_flag 0 "-c" "many" ["x"]);
    try reflexivity.
  intros [H _]. discriminate H.
Defined.

Lemma Parse_help_requests_witness :
  exists args',
    Parse KBool 64 help_flag ["-hv"; "x"]
    = Ret (args', set_WasSpecified help_flag true, Some ErrHelpRequest)
    /\ List.length args' <= List.length ["-hv"; "x"].
Proof.
  exact (Parse_help_requests KBool 64 help_flag tt "-hv" ["x"] eq_refl eq_refl).
Defined.

Lemma Parse_bool_sets_true_witness :
  Parse KBool 64 (bool_flag (U := unit) "a") ["-a"]
  = Ret ([], set_value (set_WasSpecified (bool_flag "a") true) (BoolV true), None)
  /\ ((@None error = None
       /\ value (set_value (set_WasSpecified (bool_flag (U := unit) "a") true)
                   (BoolV true)) = BoolV true
       /\ WasSpecified (set_value (set_WasSpecified (bool_flag (U := unit) "a") true)
                          (BoolV true)) = true)
      \/ (None = Some (ErrOnlyOnce (Name (bool_flag (U := unit) "a")))
          /\ set_value (set_WasSpecified (bool_flag (U := unit) "a") true)
               (BoolV true) = bool_flag "a"
          /\ [] = ["-a"]
          /\ WasSpecified (bool_flag (U := unit) "a") = true)).
Proof.
  assert (H : Parse KBool 64 (bool_flag (U := unit) "a") ["-a"]
              = Ret ([], set_value (set_WasSpecified (bool_flag "a") true)
                           (BoolV true), None))
    by reflexivity.
  split; [exact H |].
  exact (Parse_bool_sets_true KBool 64 (bool_flag "a") _ false _ _ _ eq_refl H).
Defined.

Lemma intValueParser_wraps_witness :
  exists x,
    intValueParser (U := unit) 32 (IntV 0) "4294967297" = (IntV x, None)
    /\ (- 2 ^ (32 - 1) <= x < 2 ^ (32 - 1))%Z
    /\ ((x - decimal_value "4294967297") mod 2 ^ 32 = 0)%Z
    /\ (x = decimal_value "4294967297"
        <-> - 2 ^ (32 - 1) <= decimal_value "4294967297" < 2 ^ (32 - 1))%Z.
Proof.
  apply (intValueParser_wraps (U := unit) 32 (IntV 0) "4294967297").
  - lia.
  - reflexivity.
  - unfold in_int64. change (decimal_value "4294967297") with 4294967297%Z. lia.
Defined.

Lemma Parse_each_switches_witness :
  Parse_each (U := unit) KBool 64 (map switch ["a"; "b"; "c"]%char)
    [cluster ["a"; "b"; "c"]%char ""; "x"]
  = Ret (["x"], map switched ["a"; "b"; "c"]%char, None).
Proof.
  refine (proj1 (Parse_each_switches (U := unit) KBool 64
                   ["a"; "b"]%char "c"%char ["x"] _)).
  repeat constructor; discriminate.
Defined.

Lemma Parse_each_value_last_witness :
  Parse_each KBool 64 (map switch ["v"; "f"]%char ++ [name_flag])
    [cluster ["v"; "f"]%char "n"; "Ada"; "x"]
  = Ret (["x"],
         map switched ["v"; "f"]%char
         ++ [set_value (set_WasSpecified name_flag true) (StringV "Ada")],
         None).
Proof.
  refine (Parse_each_value_last KBool 64 ["v"; "f"]%char "n"%char name_flag
            "" "Ada" ["x"] _ eq_refl eq_refl).
  repeat constructor; discriminate.
Defined.

End FlagMore.

(** * Further properties of parseTag *)

Module TagMore.
Import Go Runes Regexp RegexpProps TagGo TagProps.

(** ** White space, once more *)

Lemma TrimRight_idem (s : str) : TrimRight (TrimRight s) = TrimRight s.
Proof.
  induction s as [|c s IH]; [reflexivity |]. cbn [TrimRight].
  destruct (TrimRight s) as [|y t] eqn:E.
  - destruct (isSpace c) eqn:Hc; [reflexivity |]. cbn [TrimRight]. now rewrite Hc.
  - cbn [TrimRight]. cbn [TrimRight] in IH. now rewrite IH.
Qed.

Lemma Trim_commute (s : str) : TrimLeft (TrimRight s) = TrimRight (TrimLeft s).
Proof.
  induction s as [|c s IH]; [reflexivity |]. cbn [TrimRight TrimLeft].
  destruct (isSpace c) eqn:Hc.
  - rewrite <- IH. destruct (TrimRight s) as [|y t]; [reflexivity |].
    cbn [TrimLeft]. now rewrite Hc.
  - cbn [TrimRight]. destruct (TrimRight s) as [|y t]; cbn [TrimLeft];
      now rewrite Hc.
Qed.

Lemma TrimSpace_TrimRight (s : str) : TrimSpace (TrimRight s) = TrimSpace s.
Proof.
  unfold TrimSpace. now rewrite Trim_commute, TrimRight_idem.
Qed.

(** A rune that is no white space stops the trimming from the right. *)
Lemma TrimRight_keep (a b : str) (z : rune) :
  isSpace z = false -> TrimRight (a ++ z :: b) = a ++ z :: TrimRight b.
Proof.
  intros Hz. induction a as [|c a IH]; cbn [app TrimRight].
  - destruct (TrimRight b); [now rewrite Hz | reflexivity].
  - rewrite IH. destruct a; reflexivity.
Qed.

(** ** The loop looks at its tag through TrimSpace, and needs no more
    passes than the tag has runes *)

Lemma loop_trim (n : nat) (f : flag) (a b : str) :
  TrimSpace a = TrimSpace b -> parseTag_loop n f a = parseTag_loop n f b.
Proof. intros E. destruct n; [reflexivity |]. cbn [parseTag_loop]. now rewrite E. Qed.

Lemma loop_fuel (n1 n2 : nat) (f : flag) (tag : str) :
  List.length tag < n1 -> List.length tag < n2 ->
  parseTag_loop n1 f tag = parseTag_loop n2 f tag.
Proof.
  intros H1 H2.
  destruct (loop_scan n1 tag f H1) as (o1 & e1 & S1 & ->).
  destruct (loop_scan n2 tag f H2) as (o2 & e2 & S2 & ->).
  now destruct (scan_deterministic _ _ _ _ _ S1 S2) as [-> ->].
Qed.

(** The loop of [parseTag] entered with the descriptor [f]: what
    [parseTag] does from a pass on. *)
Definition parseTag_from (f : flag) (tag : str) : option (Result (flag + tag_error)) :=
  parseTag_loop (S (List.length tag)) f tag.

Lemma parseTag_from_new (tag : str) : parseTag tag = parseTag_from new_flag tag.
Proof. reflexivity. Qed.

(** ** What a token does *)

(** The descriptor after a well-formed token, or the error: a token
    that starts with two dashes is a long name, with one dash a short
    name (the rest of the token, whatever it is); of the others, the
    words [accumulate] and [obligatory] and the keys [description] and
    [mutexgroup] are known. *)
Definition token_effect (f : flag) (t : token) : flag + tag_error :=
  if HasPrefix (text t) (runes "--") then
    inl {| Short := Short f; Long := Long f ++ [skipn 2 (text t)];
           Description := Description f; MutexGroup := MutexGroup f;
           Accumulate := Accumulate f; Obligatory := Obligatory f |}
  else if HasPrefix (text t) (runes "-") then
    inl {| Short := Short f ++ [skipn 1 (text t)]; Long := Long f;
           Description := Description f; MutexGroup := MutexGroup f;
           Accumulate := Accumulate f; Obligatory := Obligatory f |}
  else
    match t with
    | Word w =>
        if str_eqb w (runes "accumulate") then
          inl {| Short := Short f; Long := Long f;
                 Description := Description f; MutexGroup := MutexGroup f;
                 Accumulate := true; Obligatory := Obligatory f |}
        else if str_eqb w (runes "obligatory") then
          inl {| Short := Short f; Long := Long f;
                 Description := Description f; MutexGroup := MutexGroup f;
                 Accumulate := Accumulate f; Obligatory := true |}
        else inr (ErrUnknownOption w)
    | Value key v =>
        if str_eqb key (runes "description") then
          inl {| Short := Short f; Long := Long f;
                 Description := v; MutexGroup := MutexGroup f;
                 Accumulate := Accumulate f; Obligatory := Obligatory f |}
        else if str_eqb key (runes "mutexgroup") then
          inl {| Short := Short f; Long := Long f;
                 Description := Description f; MutexGroup := v;
                 Accumulate := Accumulate f; Obligatory := Obligatory f |}
        else inr (ErrUnknownOption (text t))
    end.

Lemma word_not_equals (y : rune) : word_or_dash y = true -> N.eqb y equals = false.
Proof. intros H. now apply word_or_dash_not in H. Qed.

(** A key is compared as a whole: the option starts with [p=] exactly
    when its key is [p]. *)
Lemma key_prefix (p : str) :
  forall key r,
    forallb word_or_dash key = true -> forallb word_or_dash p = true ->
    HasPrefix (key ++ equals :: r) (p ++ [equals]) = str_eqb key p.
Proof.
  induction p as [|x p IH]; intros key r Hk Hp.
  - destruct key as [|y key]; cbn.
    + reflexivity.
    + cbn in Hk. apply andb_true_iff in Hk. destruct Hk as [Hy _].
      now rewrite (word_not_equals y Hy).
  - cbn in Hp. apply andb_true_iff in Hp. destruct Hp as [Hx Hp].
    destruct key as [|y key]; cbn [app HasPrefix str_eqb].
    + rewrite N.eqb_sym, (word_not_equals x Hx). reflexivity.
    + cbn in Hk. apply andb_true_iff in Hk. destruct Hk as [_ Hk].
      now rewrite (IH key r Hk Hp).
Qed.

Lemma value_not_word (key v : str) (w : str) :
  forallb word_or_dash w = true ->
  str_eqb (key ++ equals :: quote :: v ++ [quote]) w = false.
Proof.
  intros Hw. destruct (str_eqb _ w) eqn:E; [| reflexivity].
  apply str_eqb_eq in E. rewrite <- E, forallb_app in Hw.
  apply andb_true_iff in Hw. destruct Hw as [_ Hw]. discriminate Hw.
Qed.

Lemma value_slice (key v : str) :
  slice (key ++ equals :: quote :: v ++ [quote])
        (Z.of_nat (List.length key + 2))
        (Z.of_nat (List.length key + 2 + List.length v))
  = Ret v.
Proof.
  rewrite slice_nat.
  - replace (List.length key + 2 + List.length v - (List.length key + 2))
      with (List.length v) by lia.
    rewrite skipn_app, skipn_all2 by lia.
    replace (List.length key + 2 - List.length key) with 2 by lia.
    cbn [skipn app]. now rewrite firstn_app, firstn_all, Nat.sub_diag, app_nil_r.
  - lia.
  - rewrite length_app. cbn [List.length]. rewrite length_app. cbn [List.length]. lia.
Qed.

(** The body of the loop on the match of a well-formed token does what
    [token_effect] says. *)
Lemma apply_option_token (f : flag) (t : token) (sep : nat) :
  well_formed t = true ->
  apply_option f (text t) (token_idx t sep) = Ret (token_effect f t).
Proof.
  intros Hwf. unfold apply_option, token_effect.
  destruct (HasPrefix (text t) (runes "--")) eqn:H2.
  - apply HasPrefix_length in H2. change (List.length (runes "--")) with 2 in H2.
    change 2%Z with (Z.of_nat 2). now rewrite slice_from_nat by lia.
  - destruct (HasPrefix (text t) (runes "-")) eqn:H1.
    + apply HasPrefix_length in H1. change (List.length (runes "-")) with 1 in H1.
      change 1%Z with (Z.of_nat 1). now rewrite slice_from_nat by lia.
    + destruct t as [w | key v]; cbn [well_formed text token_idx] in *.
      * apply andb_true_iff in Hwf. destruct Hwf as [_ Hw].
        rewrite (HasPrefix_not_word w (runes "description=") Hw eq_refl).
        rewrite (HasPrefix_not_word w (runes "mutexgroup=") Hw eq_refl).
        destruct (str_eqb w (runes "accumulate")); [reflexivity |].
        destruct (str_eqb w (runes "obligatory")); reflexivity.
      * apply andb_true_iff in Hwf. destruct Hwf as [Hwf _].
        apply andb_true_iff in Hwf. destruct Hwf as [Hwf _].
        apply andb_true_iff in Hwf. destruct Hwf as [_ Hk].
        change (runes "description=") with (runes "description" ++ [equals]).
        change (runes "mutexgroup=") with (runes "mutexgroup" ++ [equals]).
        rewrite (key_prefix (runes "description") key _ Hk eq_refl).
        rewrite (key_prefix (runes "mutexgroup") key _ Hk eq_refl).
        cbn [index nth_error bind]. rewrite value_slice. cbn [bind].
        destruct (str_eqb key (runes "description")); [reflexivity |].
        destruct (str_eqb key (runes "mutexgroup")); [reflexivity |].
        rewrite !value_not_word by reflexivity. reflexivity.
Qed.

(** ** One token at a time *)

Lemma not_space_comma : isSpace comma = false.
Proof. reflexivity. Qed.

Lemma TrimSpace_token_comma (lead : str) (t : token) (rest : str) :
  all_space lead -> well_formed t = true ->
  TrimSpace (lead ++ text t ++ comma :: rest)
  = text t ++ comma :: TrimRight rest.
Proof.
  intros Hl Ht. unfold TrimSpace. rewrite (TrimLeft_space _ _ Hl).
  destruct (text_tight t Ht) as [(y & s' & Es & Hy) _].
  rewrite Es at 1. cbn [app TrimLeft]. rewrite Hy.
  change (y :: s' ++ comma :: rest) with ((y :: s') ++ comma :: rest).
  rewrite <- Es. apply TrimRight_keep. exact not_space_comma.
Qed.

Lemma loop_unfold (n : nat) (f : flag) (tag : str) :
  parseTag_loop (S n) f tag =
  if Nat.eqb (List.length (TrimSpace tag)) 0 then Some (Ret (inl f))
  else
    match next_option (TrimSpace tag) with
    | None => Some (Ret (inr (ErrNoFlagDef (TrimSpace tag))))
    | Some Panic => Some Panic
    | Some (Ret (option, idx, tag')) =>
        match apply_option f option idx with
        | Panic => Some Panic
        | Ret (inr e) => Some (Ret (inr e))
        | Ret (inl f') => parseTag_loop n f' tag'
        end
    end.
Proof. reflexivity. Qed.

Lemma step_comma (f : flag) (lead : str) (t : token) (rest : str) :
  all_space lead -> well_formed t = true ->
  parseTag_from f (lead ++ text t ++ comma :: rest)
  = match token_effect f t with
    | inr e => Some (Ret (inr e))
    | inl f' => parseTag_from f' rest
    end.
Proof.
  intros Hl Ht. unfold parseTag_from at 1. rewrite loop_unfold.
  rewrite (TrimSpace_token_comma lead t rest Hl Ht).
  destruct (Nat.eqb_spec (List.length (text t ++ comma :: TrimRight rest)) 0)
    as [E|_]; [rewrite length_app in E; cbn [List.length] in E; lia |].
  rewrite (next_option_token t (comma :: TrimRight rest) 1 Ht)
    by (right; eexists; now split).
  rewrite (apply_option_token f t 1 Ht). cbn [skipn].
  destruct (token_effect f t) as [f'|e]; [| reflexivity].
  rewrite (loop_trim _ f' (TrimRight rest) rest (TrimSpace_TrimRight rest)).
  unfold parseTag_from. apply loop_fuel; [| lia].
  rewrite !length_app. cbn [List.length]. lia.
Qed.

Lemma step_last (f : flag) (lead : str) (t : token) (trail : str) :
  all_space lead -> all_space trail -> well_formed t = true ->
  parseTag_from f (lead ++ text t ++ trail)
  = Some (Ret (token_effect f t)).
Proof.
  intros Hl Htr Ht. unfold parseTag_from. rewrite loop_unfold.
  rewrite (TrimSpace_tight lead (text t) trail Hl Htr (text_tight t Ht)).
  pose proof (spaced_length t [] Ht) as Hpos. cbn [spaced] in Hpos.
  destruct (Nat.eqb_spec (List.length (text t)) 0) as [E|_]; [lia |].
  pose proof (next_option_token t [] 0 Ht ltac:(left; now split)) as Hnext.
  rewrite app_nil_r in Hnext. rewrite Hnext, (apply_option_token f t 0 Ht).
  cbn [skipn]. destruct (token_effect f t) as [f'|e]; [| reflexivity].
  rewrite !length_app.
  destruct (List.length lead + (List.length (text t) + List.length trail))
    as [|n] eqn:E; [lia |].
  apply loop_nil.
Qed.

Lemma from_space (f : flag) (trail : str) :
  all_space trail -> parseTag_from f trail = Some (Ret (inl f)).
Proof.
  intros H. unfold parseTag_from. rewrite loop_unfold.
  now rewrite (TrimSpace_only_space trail H).
Qed.

(** X12.  A well-formed token in front: [parseTag] does to the
    descriptor what the token says, and if a comma follows it goes on
    with what follows the comma, whatever that is; if the token is not
    known it stops there with the unknown-option error, and what
    follows is not looked at.  A token at the end of the annotation
    gives the result. *)
Theorem parseTag_token_then_rest (f : flag) (lead : str) (t : token) :
  all_space lead -> well_formed t = true ->
  (forall rest,
      parseTag_from f (lead ++ text t ++ comma :: rest)
      = match token_effect f t with
        | inr e => Some (Ret (inr e))
        | inl f' => parseTag_from f' rest
        end)
  /\ (forall trail,
        all_space trail ->
        parseTag_from f (lead ++ text t ++ trail) = Some (Ret (token_effect f t))).
Proof.
  intros Hl Ht. split.
  - intros rest. now apply step_comma.
  - intros trail Htr. now apply step_last.
Qed.

(** ** Whole annotations *)

(** The tokens of an annotation, applied from the left to the
    descriptor until one is not known. *)
Fixpoint interpret (f : flag) (ts : list token) : flag + tag_error :=
  match ts with
  | [] => inl f
  | t :: ts' =>
      match token_effect f t with
      | inl f' => interpret f' ts'
      | inr e => inr e
      end
  end.

Lemma from_spaced_comma (more : list (str * token)) :
  forall (t : token) (f : flag) (lead rest : str),
    all_space lead -> well_formed t = true -> laid_out more ->
    parseTag_from f (lead ++ spaced t more ++ comma :: rest)
    = match interpret f (t :: map snd more) with
      | inr e => Some (Ret (inr e))
      | inl f' => parseTag_from f' rest
      end.
Proof.
  induction more as [|[w t'] more IH]; intros t f lead rest Hl Ht Hm.
  - cbn [spaced map interpret]. rewrite (step_comma f lead t rest Hl Ht).
    now destruct (token_effect f t).
  - inversion Hm as [|? ? [Hw Ht'] Hm']; subst. cbn [fst snd] in *.
    cbn [spaced map snd interpret]. rewrite <- !app_assoc. cbn [app].
    rewrite <- app_assoc. rewrite (step_comma f lead t _ Hl Ht).
    destruct (token_effect f t) as [f'|e]; [| reflexivity].
    apply (IH t' f' w rest Hw Ht' Hm').
Qed.

Lemma from_spaced_last (more : list (str * token)) :
  forall (t : token) (f : flag) (lead trail : str),
    all_space lead -> all_space trail -> well_formed t = true -> laid_out more ->
    parseTag_from f (lead ++ spaced t more ++ trail)
    = Some (Ret (interpret f (t :: map snd more))).
Proof.
  induction more as [|[w t'] more IH]; intros t f lead trail Hl Htr Ht Hm.
  - cbn [spaced map interpret]. rewrite (step_last f lead t trail Hl Htr Ht).
    now destruct (token_effect f t).
  - inversion Hm as [|? ? [Hw Ht'] Hm']; subst. cbn [fst snd] in *.
    cbn [spaced map snd interpret]. rewrite <- !app_assoc. cbn [app].
    rewrite <- app_assoc. rewrite (step_comma f lead t _ Hl Ht).
    destruct (token_effect f t) as [f'|e]; [| reflexivity].
    apply (IH t' f' w trail Hw Htr Ht' Hm').
Qed.

Lemma parseTag_annotation (l : list (str * token)) (trail : str) :
  laid_out l -> all_space trail ->
  parseTag (annotation l ++ trail)
  = Some (Ret (interpret new_flag (map snd l))).
Proof.
  intros Hl Htr. rewrite parseTag_from_new. destruct l as [|[w t] more].
  - cbn [annotation app map interpret]. now apply from_space.
  - inversion Hl as [|? ? [Hw Ht] Hm]; subst. cbn [fst snd] in *.
    cbn [annotation map snd]. rewrite <- app_assoc.
    now apply from_spaced_last.
Qed.

(** X13.  An annotation of well-formed tokens, laid out with white
    space before the tokens and at its end, is parsed to what its
    tokens say, from the left: the names in their order, the last
    description and mutex group (each as it stands between its quotes,
    backslashes included), the keywords; or to the unknown-option
    error of the first token that is not known.  An annotation of white
    space alone gives the descriptor with no names. *)
Theorem parseTag_interprets (l : list (str * token)) (trail : str) :
  laid_out l -> all_space trail ->
  parseTag (annotation l ++ trail)
  = Some (Ret (interpret new_flag (map snd l))).
Proof.
  intros Hl Htr. rewrite parseTag_from_new. destruct l as [|[w t] more].
  - cbn [annotation app map interpret]. now apply from_space.
  - inversion Hl as [|? ? [Hw Ht] Hm]; subst. cbn [fst snd] in *.
    cbn [annotation map snd]. rewrite <- app_assoc.
    now apply from_spaced_last.
Qed.

(** X14.  One comma after the last token is ignored. *)
Theorem parseTag_trailing_comma (l : list (str * token)) (trail : str) :
  l <> [] -> laid_out l -> all_space trail ->
  parseTag (annotation l ++ comma :: trail) = parseTag (annotation l).
Proof.
  intros Hne Hl Htr.
  rewrite <- (app_nil_r (annotation l)) at 2.
  rewrite (parseTag_annotation l [] Hl eq_refl), parseTag_from_new.
  destruct l as [|[w t] more]; [now elim Hne |].
  inversion Hl as [|? ? [Hw Ht] Hm]; subst. cbn [fst snd] in *.
  cbn [annotation map snd]. rewrite <- app_assoc.
  rewrite (from_spaced_comma more t new_flag w trail Hw Ht Hm).
  destruct (interpret new_flag (t :: map snd more)) as [f'|e]; [| reflexivity].
  now apply from_space.
Qed.

(** The first rune of a token of the grammar is of [[[:word:]-]]. *)
Lemma token_starts_with_word (s : str) :
  starts_with_token s ->
  exists y r, s = y :: r /\ word_or_dash y = true.
Proof.
  intros (t & tail & sep & Hg & _ & ->).
  destruct t as [w | key v]; cbn [grammar_token text] in *.
  - destruct Hg as [Hne Hw]. destruct w as [|y w]; [now elim Hne |].
    exists y, (w ++ tail). split; [reflexivity |].
    cbn in Hw. now apply andb_true_iff in Hw.
  - destruct Hg as (Hne & Hk & _). destruct key as [|y key]; [now elim Hne |].
    eexists y, _. split; [reflexivity |].
    cbn in Hk. now apply andb_true_iff in Hk.
Qed.

(** X15.  Where the next visible rune is not of [[[:word:]-]] (a
    comma, a quote, an equals sign and so on), [parseTag] stops with
    the error that names what is left, trimmed: an empty token, as in
    a doubled or a leading comma, is not skipped. *)
Theorem parseTag_rejects_other_rune (f : flag) (tag : str) (y : rune) (r : str) :
  TrimSpace tag = y :: r -> word_or_dash y = false ->
  parseTag_from f tag = Some (Ret (inr (ErrNoFlagDef (y :: r)))).
Proof.
  intros Et Hy. unfold parseTag_from. rewrite loop_unfold, Et.
  cbn [List.length Nat.eqb].
  assert (Hnone : FindStringSubmatchIndex optionRegexp (y :: r) = None).
  { apply find_none_iff. intros H. apply token_starts_with_word in H.
    destruct H as (y' & r' & E & Hy'). injection E as <- _. congruence. }
  now rewrite (next_option_none _ Hnone).
Qed.

(** ** Annotations put together *)

(** The descriptor of two annotations one after the other: the names of
    both in order, the description and the mutex group of the second
    if it has one, the keywords of either. *)
Definition merge (d1 d2 : flag) : flag :=
  {| Short := Short d1 ++ Short d2;
     Long := Long d1 ++ Long d2;
     Description := if nonempty (Description d2) then Description d2
                     else Description d1;
     MutexGroup := if nonempty (MutexGroup d2) then MutexGroup d2
                    else MutexGroup d1;
     Accumulate := Accumulate d1 || Accumulate d2;
     Obligatory := Obligatory d1 || Obligatory d2 |}.

Definition merge_result (r1 r2 : flag + tag_error) : flag + tag_error :=
  match r1, r2 with
  | inl d1, inl d2 => inl (merge d1 d2)
  | inl _, inr e => inr e
  | inr e, _ => inr e
  end.

Lemma merge_new_r (f : flag) : merge f new_flag = f.
Proof.
  destruct f. unfold merge. cbn. now rewrite !app_nil_r, !orb_false_r.
Qed.

Lemma merge_assoc (a b c : flag) : merge (merge a b) c = merge a (merge b c).
Proof.
  unfold merge. cbn. rewrite !app_assoc, !orb_assoc. f_equal.
  - destruct (Description c); cbn; [| reflexivity]. now destruct (Description b).
  - destruct (MutexGroup c); cbn; [| reflexivity]. now destruct (MutexGroup b).
Qed.

Lemma token_effect_merge (f : flag) (t : token) :
  well_formed t = true ->
  token_effect f t = merge_result (inl f) (token_effect new_flag t).
Proof.
  intros Hwf. unfold token_effect.
  destruct (HasPrefix (text t) (runes "--")).
  { cbn. unfold merge. cbn. now rewrite !app_nil_r, !orb_false_r. }
  destruct (HasPrefix (text t) (runes "-")).
  { cbn. unfold merge. cbn. now rewrite !app_nil_r, !orb_false_r. }
  destruct t as [w | key v].
  - destruct (str_eqb w (runes "accumulate")).
    { cbn. unfold merge. cbn. now rewrite !app_nil_r, orb_true_r, orb_false_r. }
    destruct (str_eqb w (runes "obligatory")); [| reflexivity].
    cbn. unfold merge. cbn. now rewrite !app_nil_r, orb_true_r, orb_false_r.
  - cbn [well_formed] in Hwf. apply andb_true_iff in Hwf. destruct Hwf as [Hwf _].
    apply andb_true_iff in Hwf. destruct Hwf as [_ Hv].
    destruct (str_eqb key (runes "description")).
    { cbn. unfold merge. cbn. now rewrite Hv, !app_nil_r, !orb_false_r. }
    destruct (str_eqb key (runes "mutexgroup")); [| reflexivity].
    cbn. unfold merge. cbn. now rewrite Hv, !app_nil_r, !orb_false_r.
Qed.

Lemma interpret_merge (ts : list token) :
  forall f,
    Forall (fun t => well_formed t = true) ts ->
    interpret f ts = merge_result (inl f) (interpret new_flag ts).
Proof.
  induction ts as [|t ts IH]; intros f Hts.
  - cbn. now rewrite merge_new_r.
  - inversion Hts as [|? ? Ht Hts']; subst. cbn [interpret].
    rewrite (token_effect_merge f t Ht).
    destruct (token_effect new_flag t) as [dt|e]; [| reflexivity].
    cbn [merge_result]. rewrite (IH (merge f dt) Hts'), (IH dt Hts').
    destruct (interpret new_flag ts) as [d|e]; [| reflexivity].
    cbn [merge_result]. now rewrite merge_assoc.
Qed.

Lemma interpret_app (a b : list token) :
  forall f,
    interpret f (a ++ b)
    = match interpret f a with
      | inl f' => interpret f' b
      | inr e => inr e
      end.
Proof.
  induction a as [|t a IH]; intros f; [reflexivity |]. cbn [app interpret].
  destruct (token_effect f t) as [f'|e]; [apply IH | reflexivity].
Qed.

Lemma spaced_app (m1 : list (str * token)) :
  forall t w2 t2 m2,
    spaced t (m1 ++ (w2, t2) :: m2)
    = spaced t m1 ++ comma :: w2 ++ spaced t2 m2.
Proof.
  induction m1 as [|[w t'] m1 IH]; intros t w2 t2 m2; [reflexivity |].
  cbn [app spaced]. rewrite IH, <- !app_assoc. cbn [app].
  now rewrite <- app_assoc.
Qed.

Lemma laid_out_tokens (l : list (str * token)) :
  laid_out l -> Forall (fun t => well_formed t = true) (map snd l).
Proof.
  intros H. induction H as [|[w t] l [_ Ht] _ IH]; constructor; assumption.
Qed.

(** X16.  Two annotations joined by a comma are parsed to the merge of
    what each is parsed to: the names of both in order, the
    description and mutex group of the second if it gives one, else of
    the first; the first error from the left if there is one. *)
Theorem parseTag_merges (l1 l2 : list (str * token)) :
  laid_out l1 -> laid_out l2 ->
  (l1 <> [] -> l2 <> [] ->
   annotation (l1 ++ l2) = annotation l1 ++ comma :: annotation l2)
  /\ exists r1 r2,
       parseTag (annotation l1) = Some (Ret r1)
       /\ parseTag (annotation l2) = Some (Ret r2)
       /\ parseTag (annotation (l1 ++ l2)) = Some (Ret (merge_result r1 r2)).
Proof.
  intros H1 H2. split.
  - intros N1 N2. destruct l1 as [|[w t] m1]; [now elim N1 |].
    destruct l2 as [|[w2 t2] m2]; [now elim N2 |].
    cbn [app annotation]. now rewrite spaced_app, <- app_assoc.
  - exists (interpret new_flag (map snd l1)), (interpret new_flag (map snd l2)).
    assert (H12 : laid_out (l1 ++ l2)) by now apply Forall_app.
    pose proof (parseTag_annotation l1 [] H1 eq_refl) as E1.
    pose proof (parseTag_annotation l2 [] H2 eq_refl) as E2.
    pose proof (parseTag_annotation (l1 ++ l2) [] H12 eq_refl) as E12.
    rewrite app_nil_r in E1, E2, E12. split; [exact E1 |]. split; [exact E2 |].
    rewrite E12, map_app, interpret_app.
    destruct (interpret new_flag (map snd l1)) as [d1|e]; [| reflexivity].
    do 2 f_equal. apply interpret_merge. now apply laid_out_tokens.
Qed.

(** ** Names *)

Lemma short_name_no_dash (oi : str * list Z) :
  Forall (fun name => HasPrefix name (runes "-") = false) (short_name oi).
Proof.
  unfold short_name. destruct oi as [o idx]. cbn [fst].
  destruct (HasPrefix o (runes "--")) eqn:H2; [constructor |].
  destruct (HasPrefix o (runes "-")) eqn:H1; [| constructor].
  constructor; [| constructor].
  destruct o as [|y o]; [discriminate H1 |].
  cbn in H1, H2 |- *. destruct (N.eqb y 45); [| discriminate H1].
  cbn in H2. destruct o as [|z o]; [reflexivity |].
  cbn in H2 |- *. now rewrite andb_true_r in *.
Qed.

(** X17.  No short name that [parseTag] gives starts with a dash: a
    token with two dashes in front is a long name. *)
Theorem parseTag_short_names_no_dash (tag : str) (d : flag) :
  parseTag tag = Some (Ret (inl d)) ->
  Forall (fun name => HasPrefix name (runes "-") = false) (Short d).
Proof.
  intros H. destruct (parseTag_scan tag) as (opts & e & _ & Hparse).
  rewrite Hparse in H. destruct e; try discriminate H. injection H as <-.
  destruct (fold_set_option opts new_flag) as (-> & _). cbn [Short new_flag app].
  clear Hparse. unfold short_names. induction opts as [|oi opts IH]; [constructor |].
  cbn [flat_map]. apply Forall_app. split; [apply short_name_no_dash | exact IH].
Qed.

(** ** The regular expression *)

(** X18.  [optionRegexp] matches a text if and only if the text starts
    with a token of the grammar (a run of [[[:word:]-]] that is not
    empty, alone or as the key of [='...'] with a value that is not
    empty and in which a quote stands only after a backslash) that is
    followed by a comma or ends the text. *)
Theorem optionRegexp_matches_iff (s : str) :
  (exists idx, FindStringSubmatchIndex optionRegexp s = Some idx)
  <-> starts_with_token s.
Proof.
  split.
  - intros [idx H]. now apply (find_some_token s idx).
  - intros (t & tail & sep & Hg & Hfol & ->).
    now apply (find_grammar_token t tail sep).
Qed.

(** X19.  The indices of a match: the match and group 1 start at 0,
    group 1 is not empty, the match ends where group 1 ends or one
    rune later (the comma), within the text; group 2 is not set, or it
    is not empty and lies within group 1.  So the slices [parseTag]
    takes are in range and every pass makes the tag shorter. *)
Theorem optionRegexp_match_bounds (s : str) (idx : list Z) :
  FindStringSubmatchIndex optionRegexp s = Some idx ->
  exists e g a b : Z,
    idx = [0; e; 0; g; a; b]%Z
    /\ (0 < g <= e)%Z /\ (e <= g + 1)%Z /\ (e <= Z.of_nat (List.length s))%Z
    /\ ((a = -1 /\ b = -1)%Z \/ (0 < a < b /\ b < g)%Z).
Proof.
  intros H. destruct (find_shape s idx H) as (g & e & Hg & Hsep & Hidx).
  pose proof (sep_after_le s g e Hsep ltac:(lia)) as He.
  assert (He' : e <= g + 1)
    by (destruct Hsep as [[_ ->] | (r & _ & ->)]; lia).
  destruct Hidx as [[-> _] | (a & b & -> & Hab & Ha)].
  - exists (Z.of_nat e), (Z.of_nat g), (-1)%Z, (-1)%Z.
    split; [reflexivity |]. repeat split; lia.
  - exists (Z.of_nat e), (Z.of_nat g), (Z.of_nat a), (Z.of_nat b).
    split; [reflexivity |]. repeat split; lia.
Qed.

(** ** The properties at concrete annotations *)

Definition a_flag : flag :=
  {| Short := [runes "a"]; Long := []; Description := []; MutexGroup := [];
     Accumulate := false; Obligatory := false |}.

Lemma parseTag_token_then_rest_witness :
  parseTag_from new_flag (runes " -a,,-b")
  = match token_effect new_flag (Word (runes "-a")) with
    | inr e => Some (Ret (inr e))
    | inl f' => parseTag_from f' (runes ",-b")
    end.
Proof.
  exact (proj1 (parseTag_token_then_rest new_flag [sp] (Word (runes "-a"))
                  eq_refl eq_refl) (runes ",-b")).
Defined.

Definition name_layout : list (str * token) :=
  [([sp], Word (runes "-n"));
   ([sp; sp], Word (runes "--name"));
   ([], Value (runes "description") (runes "the user\'s name"));
   ([sp], Word (runes "obligatory"))].

Lemma name_layout_laid_out : laid_out name_layout.
Proof. repeat constructor. Qed.

Lemma parseTag_interprets_witness :
  parseTag (runes " -n,  --name,description='the user\'s name', obligatory  ")
  = Some (Ret (inl {| Short := [runes "n"]; Long := [runes "name"];
                      Description := runes "the user\'s name";
                      MutexGroup := [];
                      Accumulate := false; Obligatory := true |})).
Proof.
  exact (parseTag_interprets name_layout [sp; sp] name_layout_laid_out eq_refl).
Defined.

Lemma parseTag_trailing_comma_witness :
  parseTag (runes " -n,  --name,description='the user\'s name', obligatory, ")
  = parseTag (runes " -n,  --name,description='the user\'s name', obligatory").
Proof.
  refine (parseTag_trailing_comma name_layout [sp] _ name_layout_laid_out eq_refl).
  discriminate.
Defined.

Lemma parseTag_rejects_other_rune_witness :
  parseTag_from a_flag (runes ",-b")
  = Some (Ret (inr (ErrNoFlagDef (runes ",-b")))).
Proof.
  exact (parseTag_rejects_other_rune a_flag (runes ",-b") comma (runes "-b")
           eq_refl eq_refl).
Defined.

Lemma parseTag_merges_witness :
  exists r1 r2,
    parseTag (runes "-a, description='one'") = Some (Ret r1)
    /\ parseTag (runes "-b,description='two'") = Some (Ret r2)
    /\ parseTag (runes "-a, description='one',-b,description='two'")
       = Some (Ret (merge_result r1 r2)).
Proof.
  refine (proj2 (parseTag_merges
                   [([], Word (runes "-a"));
                    ([sp], Value (runes "description") (runes "one"))]
                   [([], Word (runes "-b"));
                    ([], Value (runes "description") (runes "two"))] _ _));
    repeat constructor.
Defined.

Lemma parseTag_short_names_no_dash_witness :
  Forall (fun name => HasPrefix name (runes "-") = false)
         [runes "a"; runes "b-c"].
Proof.
  refine (parseTag_short_names_no_dash (runes "-a, --x, -b-c")
            {| Short := [runes "a"; runes "b-c"]; Long := [runes "x"];
               Description := []; MutexGroup := [];
               Accumulate := false; Obligatory := false |} _).
  vm_compute. reflexivity.
Defined.

Lemma optionRegexp_match_bounds_witness :
  exists e g a b : Z,
    [0; 16; 0; 15; 13; 14]%Z = [0; e; 0; g; a; b]%Z
    /\ (0 < g <= e)%Z /\ (e <= g + 1)%Z
    /\ (e <= Z.of_nat (List.length (runes "description='x',-a")))%Z
    /\ ((a = -1 /\ b = -1)%Z \/ (0 < a < b /\ b < g)%Z).
Proof.
  refine (optionRegexp_match_bounds (runes "description='x',-a") _ _).
  vm_compute. reflexivity.
Defined.

End TagMore.

(** * The package-level Parse and PrintHelp *)

Module GlobalGo.
Import Go.

Section Global.

(** The flag set, its constructor and its two methods are declared
    outside these files: they are parameters.  [NewFlagSet] gives a
    flag set or an error; [FlagSet_Parse] gives the flag set as the
    call leaves it (the package holds it by a pointer) and the error;
    [FlagSet_PrintHelp] gives what is written.  The three are taken to
    return. *)
Context {V FS E Out : Type}.
Context (NewFlagSet : string -> V -> FS + E)
        (FlagSet_Parse : FS -> list string -> FS * option E)
        (FlagSet_PrintHelp : FS -> Out).

(** The state the two functions share: the variable [globalFlagSet]
    ([None] is nil) and what was written to [os.Stderr]. *)
Record World : Type := {
  globalFlagSet : option FS;
  stderr : list Out
}.

(** [Parse(v)], with [os.Args] given. *)
Definition Parse (osArgs : list string) (v : V) (w : World)
  : Result (World * option E) :=
  name <- index osArgs 0 ;;
  match NewFlagSet name v with
  | inr err => Ret (w, Some err)
  | inl fs =>
      args <- slice_list osArgs 1 ;;
      let '(fs', e) := FlagSet_Parse fs args in
      Ret ({| globalFlagSet := Some fs'; stderr := stderr w |}, e)
  end.

(** [PrintHelp()]. *)
Definition PrintHelp (w : World) : Result World :=
  match globalFlagSet w with
  | None => Panic
  | Some fs =>
      Ret {| globalFlagSet := Some fs;
             stderr := stderr w ++ [FlagSet_PrintHelp fs] |}
  end.

(** X20.  After a call of [Parse] that returned, [PrintHelp] panics
    only if no flag set was ever built: the variable was nil before and
    the construction failed in this call.  When the construction
    succeeds and the arguments are then rejected, the flag set is
    already in place and [PrintHelp] prints it; [Parse] itself writes
    nothing. *)
Theorem PrintHelp_after_Parse (osArgs : list string) (v : V) (w w' : World)
    (e : option E) :
  Parse osArgs v w = Ret (w', e) ->
  stderr w' = stderr w
  /\ (PrintHelp w' = Panic
      <-> globalFlagSet w = None
          /\ exists name err,
               hd_error osArgs = Some name
               /\ NewFlagSet name v = inr err /\ e = Some err).
Proof.
  unfold Parse. destruct osArgs as [|name args]; [discriminate |].
  cbn [index nth_error bind hd_error].
  destruct (NewFlagSet name v) as [fs|err] eqn:En.
  - unfold slice_list. cbn [List.length Nat.leb skipn bind].
    destruct (FlagSet_Parse fs args) as [fs' e'].
    intros H. injection H as <- <-. split; [reflexivity |]. split.
    + discriminate.
    + intros (_ & name' & err & Hn & Hc & _). injection Hn as <-. congruence.
  - intros H. injection H as <- <-. split; [reflexivity |].
    unfold PrintHelp. destruct (globalFlagSet w) as [fs0|]; split.
    + discriminate.
    + intros [H _]. discriminate H.
    + intros _. split; [reflexivity |]. now exists name, err.
    + reflexivity.
Qed.

End Global.

(** The property at a concrete program: the flag set is the list of
    the flag names the struct declares, an argument is accepted if it
    is one of them. *)
Definition toy_new (name : string) (v : list string) : list string + string :=
  match v with
  | [] => inr "no flags"
  | _ => inl v
  end.

Definition toy_parse (fs : list string) (args : list string)
  : list string * option string :=
  match args with
  | a :: _ => if existsb (String.eqb a) fs then (fs, None) else (fs, Some a)
  | [] => (fs, None)
  end.

Definition toy_help (fs : list string) : list string := fs.

Lemma PrintHelp_after_Parse_witness :
  PrintHelp toy_help
    {| globalFlagSet := Some ["-n"]; stderr := [] |}
  = Ret {| globalFlagSet := Some ["-n"]; stderr := [["-n"]] |}
  /\ (PrintHelp toy_help {| globalFlagSet := Some ["-n"]; stderr := [] |} = Panic
      <-> @None (list string) = None
          /\ exists name err,
               hd_error ["prog"; "-x"] = Some name
               /\ toy_new name ["-n"] = inr err /\ Some "-x" = Some err).
Proof.
  split; [reflexivity |].
  exact (proj2 (PrintHelp_after_Parse toy_new toy_parse toy_help
                  ["prog"; "-x"] ["-n"]
                  {| globalFlagSet := None; stderr := [] |}
                  {| globalFlagSet := Some ["-n"]; stderr := [] |}
                  (Some "-x") eq_refl)).
Defined.

End GlobalGo.
